(** * ec_utils: workflow-graph modularisation and country-code helpers

    A shallow embedding of [src/ec_utils/modules.py] and of the country-code
    functions of [ec_utils/utils.py].

    Python objects that are mutated in place (the networkx graphs) live in an
    object store; a function of the source becomes a computation in a state
    and exception monad over that store.  Calls that leave the program (the
    dot reader, the PNG writer, the pycountry database) are recorded in an
    event log, so that "before any parsing" is a statement about the log. *)

From stdpp Require Import gmap strings list fin_maps.
From Stdlib Require Import String Ascii.

(** ** Python strings *)

Module Py.

(** The double-quote character, [chr(34)]. *)
Definition dquote : ascii := "034"%char.

(** [value.replace(dquote, empty)]: every double quote is dropped. *)
Fixpoint replace_dquote (s : string) : string :=
  match s with
  | EmptyString => EmptyString
  | String c s' =>
      if Ascii.eqb c dquote then replace_dquote s'
      else String c (replace_dquote s')
  end.

(** [s.startswith(p)]. *)
Definition startswith (s p : string) : bool := String.prefix p s.

(** [s.endswith(suf)]: the last [len(suf)] characters of [s] are [suf]. *)
Definition endswith (s suf : string) : bool :=
  (String.length suf <=? String.length s)%nat
  && String.eqb
       (String.substring (String.length s - String.length suf)
                         (String.length suf) s)
       suf.

(** [s.lower()] on ASCII letters; other characters are kept. *)
Definition lower_char (c : ascii) : ascii :=
  let n := nat_of_ascii c in
  if (65 <=? n)%nat && (n <=? 90)%nat then ascii_of_nat (n + 32) else c.

Fixpoint lower (s : string) : string :=
  match s with
  | EmptyString => EmptyString
  | String c s' => String (lower_char c) (lower s')
  end.

End Py.

(** ** Exceptions and outcomes *)

Inductive exn : Type :=
  | ValueError (msg : string)
  | AssertionError (msg : string)
  | LookupError (msg : string)
  | NetworkXError (msg : string).

Inductive outcome (A : Type) : Type :=
  | Ok (a : A)
  | Raise (e : exn).
Arguments Ok {A} a.
Arguments Raise {A} e.

(** ** networkx.DiGraph, as a value *)

(** Attribute dictionaries: string keys, string values. *)
Abbreviation attrs := (gmap string string).

(** A directed graph: the graph attributes, the nodes with their attribute
    dictionaries, and the edges with theirs.  Node identifiers are strings
    (the dot reader yields strings, and proxy nodes are named by a prefix). *)
Record DiGraph : Type := mkDiGraph {
  graph_attr : attrs;
  nodes : gmap string attrs;
  edges : gmap (string * string) attrs
}.

Global Instance DiGraph_inhabited : Inhabited DiGraph :=
  populate (mkDiGraph ∅ ∅ ∅).

(** [G.add_node(n, **attr)]: a new node gets [attr]; an existing node has
    its dictionary updated with [attr]. *)
Definition add_node (n : string) (attr : attrs) (G : DiGraph) : DiGraph :=
  mkDiGraph (graph_attr G)
            (<[n := attr ∪ default ∅ (nodes G !! n)]> (nodes G))
            (edges G).

(** A node that an [add_edge] mentions comes into being with no attribute. *)
Definition touch_node (n : string) (N : gmap string attrs) : gmap string attrs :=
  match N !! n with
  | Some _ => N
  | None => <[n := ∅]> N
  end.

(** [G.add_edge(u, v)]: both endpoints are added when absent; an edge that
    is already there is left as it is. *)
Definition add_edge (u v : string) (G : DiGraph) : DiGraph :=
  mkDiGraph (graph_attr G)
            (touch_node v (touch_node u (nodes G)))
            (match edges G !! (u, v) with
             | Some _ => edges G
             | None => <[(u, v) := ∅]> (edges G)
             end).

(** [G.remove_edge(u, v)]: raises when the edge is not in the graph. *)
Definition remove_edge (u v : string) (G : DiGraph) : outcome DiGraph :=
  match edges G !! (u, v) with
  | Some _ => Ok (mkDiGraph (graph_attr G) (nodes G) (delete (u, v) (edges G)))
  | None =>
      Raise (NetworkXError ("The edge " +:+ u +:+ "-" +:+ v +:+ " not in graph."))
  end.

(** [G.remove_nodes_from(S)]: the nodes of [S] go, with every edge that
    touches one of them; members of [S] that are not nodes are ignored. *)
Definition remove_nodes_from (S : gset string) (G : DiGraph) : DiGraph :=
  mkDiGraph (graph_attr G)
            (filter (λ kv, kv.1 ∉ S) (nodes G))
            (filter (λ kv, (kv.1.1 ∉ S) ∧ (kv.1.2 ∉ S)) (edges G)).

(** [G.has_node(n)] and [G.has_edge(u, v)]. *)
Definition has_node (G : DiGraph) (n : string) : Prop := n ∈ dom (nodes G).

Definition has_edge (G : DiGraph) (u v : string) : Prop :=
  (u, v) ∈ dom (edges G).

(** [nx.get_node_attributes(G, name)]: the nodes that carry [name], with
    its value. *)
Definition get_node_attributes (G : DiGraph) (name : string) : gmap string string :=
  omap (λ d : attrs, d !! name) (nodes G).

(** [G.edges], as the list a [for] loop walks. *)
Definition edge_list (G : DiGraph) : list (string * string) :=
  fst <$> map_to_list (edges G).

(** ** The object store and the monad of the program *)

Abbreviation loc := positive.

(** What the program asks of its surroundings. *)
Inductive Event : Type :=
  | ReadDot (path : string)
  | WritePng (path : string) (G : DiGraph)
  | CountryLookup (value : string).

Record State : Type := mkState {
  heap : gmap loc DiGraph;
  events : list Event
}.

Definition M (A : Type) : Type := State → outcome A * State.

Global Instance M_ret : MRet M := λ A a st, (Ok a, st).

(** An exception ends the computation; what was written before it stays. *)
Global Instance M_bind : MBind M := λ A B f m st,
  match m st with
  | (Ok a, st') => f a st'
  | (Raise e, st') => (Raise e, st')
  end.

Definition raise {A : Type} (e : exn) : M A := λ st, (Raise e, st).

Definition load (l : loc) : M DiGraph := λ st, (Ok (heap st !!! l), st).

Definition store (l : loc) (G : DiGraph) : M unit :=
  λ st, (Ok tt, mkState (<[l := G]> (heap st)) (events st)).

Definition alloc (G : DiGraph) : M loc :=
  λ st, let l := fresh (dom (heap st)) in
        (Ok l, mkState (<[l := G]> (heap st)) (events st)).

Definition emit (e : Event) : M unit :=
  λ st, (Ok tt, mkState (heap st) (events st ++ [e])).

(** [for x in xs: body(x)]. *)
Fixpoint for_each {A : Type} (xs : list A) (body : A → M unit) : M unit :=
  match xs with
  | [] => mret tt
  | x :: xs' => body x;; for_each xs' body
  end.

(** The methods of a graph object, acting on the object at [l]. *)
Definition copy_at (l : loc) : M loc := G ← load l; alloc G.

Definition add_node_at (l : loc) (n : string) (attr : attrs) : M unit :=
  G ← load l; store l (add_node n attr G).

Definition add_edge_at (l : loc) (u v : string) : M unit :=
  G ← load l; store l (add_edge u v G).

Definition remove_edge_at (l : loc) (u v : string) : M unit :=
  G ← load l;
  match remove_edge u v G with
  | Ok G' => store l G'
  | Raise e => raise e
  end.

Definition remove_nodes_from_at (l : loc) (S : gset string) : M unit :=
  G ← load l; store l (remove_nodes_from S G).

Definition get_node_attributes_at (l : loc) (name : string) : M (gmap string string) :=
  G ← load l; mret (get_node_attributes G name).

Definition edges_at (l : loc) : M (list (string * string)) :=
  G ← load l; mret (edge_list G).

(** ** modules.py *)

(** [dict(label=prefix, color="0 0 0", style="diagonals")]. *)
Definition module_node_attrs (prefix : string) : attrs :=
  <["label" := prefix]> (<["color" := "0 0 0"]> (<["style" := "diagonals"]> ∅)).

(** [set(key for key, value in labels.items() if value.startswith(prefix))]. *)
Definition module_nodes_of (labels : gmap string string) (prefix : string) : gset string :=
  dom (filter (λ kv, Py.startswith kv.2 prefix = true) labels).

(** The body of the loop over [rulegraph.edges]. *)
Definition rewrite_edge_at (modulegraph : loc) (prefix : string)
    (module_nodes : gset string) (edge : string * string) : M unit :=
  if decide (({[edge.1; edge.2]} : gset string) ∖ module_nodes = ∅) then
    (* edge is completely within the module *)
    remove_edge_at modulegraph edge.1 edge.2
  else if decide ((edge.1 ∈ module_nodes) ∧ (edge.2 ∉ module_nodes)) then
    (* edge is a module output *)
    add_edge_at modulegraph prefix edge.2
  else if decide ((edge.1 ∉ module_nodes) ∧ (edge.2 ∈ module_nodes)) then
    (* edge is a module input *)
    add_edge_at modulegraph edge.1 prefix
  else mret tt.

Definition prefix_not_found (prefix : string) : exn :=
  ValueError ("Prefix not found: " +:+ prefix +:+ ".").

(** The body of the loop over [module_prefixes]. *)
Definition collapse_module_at (rulegraph modulegraph : loc)
    (labels : gmap string string) (prefix : string) : M unit :=
  add_node_at modulegraph prefix (module_node_attrs prefix);;
  let module_nodes := module_nodes_of labels prefix in
  if decide (module_nodes = ∅) then raise (prefix_not_found prefix)
  else
    es ← edges_at rulegraph;
    for_each es (rewrite_edge_at modulegraph prefix module_nodes);;
    remove_nodes_from_at modulegraph module_nodes.

Definition _modularise_snakemake_graph (rulegraph : loc)
    (module_prefixes : list string) : M loc :=
  labels ← get_node_attributes_at rulegraph "label";
  (* Ensure labels are clean strings *)
  let labels := fmap Py.replace_dquote labels in
  modulegraph ← copy_at rulegraph;
  for_each module_prefixes (collapse_module_at rulegraph modulegraph labels);;
  mret modulegraph.

Section entry.

(** The dot reader: [nx.DiGraph(nx.nx_pydot.read_dot(path))], as the graph
    it yields for a path, or the exception it raises. *)
Variable read_dot : string → outcome DiGraph.

Definition read_dot_at (path : string) : M loc :=
  emit (ReadDot path);;
  match read_dot path with
  | Ok G => alloc G
  | Raise e => raise e
  end.

(** [to_pydot(G).write_png(path)]. *)
Definition write_png_at (l : loc) (path : string) : M unit :=
  G ← load l; emit (WritePng path G).

Definition write_snakemake_modulegraph_png (snakemake_dotfile output_path : string)
    (prefixes : string + list string) : M unit :=
  if negb (Py.endswith snakemake_dotfile ".dot") then
    raise (ValueError "Only .dot files can be processed.")
  else
    let prefixes :=
      match prefixes with
      | inl p => [p]
      | inr ps => ps
      end in
    rulegraph ← read_dot_at snakemake_dotfile;
    modulegraph ← _modularise_snakemake_graph rulegraph prefixes;
    write_png_at modulegraph output_path.

End entry.

(** ** utils.py: country codes *)

(** A record of the pycountry database (the fields the code reads). *)
Record Country : Type := mkCountry {
  alpha_2 : string;
  alpha_3 : string;
  name : string
}.

(** [Literal["alpha2", "alpha2_eu", "alpha3", "name"]]. *)
Inductive output_format : Type :=
  | out_alpha2
  | out_alpha2_eu
  | out_alpha3
  | out_name.

(** [Literal["raise", "ignore"]]. *)
Inductive errors_mode : Type :=
  | errors_raise
  | errors_ignore.

Section utils.

(** [pycountry.countries.lookup]: the record found for a value, or the
    [LookupError] raised. *)
Variable countries_lookup : string → outcome Country.

Definition lookup_at (value : string) : M Country :=
  emit (CountryLookup value);;
  match countries_lookup value with
  | Ok c => mret c
  | Raise e => raise e
  end.

Definition convert_country_code (input_country : string)
    (output : output_format) : M string :=
  let input_country :=
    if String.eqb (Py.lower input_country) "el" then "gr"
    else if String.eqb (Py.lower input_country) "uk" then "gb"
    else if String.eqb (Py.lower input_country) "bh" then
      (* this is a weird country code used in the biofuels dataset *)
      "ba"
    else input_country in
  lookup ← lookup_at input_country;
  match output with
  | out_alpha2 => mret (alpha_2 lookup)
  | out_alpha2_eu =>
      let alpha2 := alpha_2 lookup in
      if String.eqb alpha2 "GB" then mret "UK"
      else if String.eqb alpha2 "GR" then mret "EL"
      else mret alpha2
  | out_alpha3 => mret (alpha_3 lookup)
  | out_name => mret (name lookup)
  end.


(** [LOGGER.info]: what the logging configuration does with a message. *)
Variable logger_info : string → M unit.

(** [try: body  except LookupError as err: handler(err)]: any other
    exception goes through. *)
Definition try_except_LookupError {A : Type} (body : M A)
    (handler : exn → M A) : M A :=
  λ st, match body st with
        | (Raise (LookupError msg), st') => handler (LookupError msg) st'
        | res => res
        end.

(** The loop over [country_codes]; [mapped_codes] is the dictionary as
    filled so far. *)
Fixpoint convert_valid_countries_loop (country_codes : list string)
    (output : output_format) (errors : errors_mode)
    (mapped_codes : gmap string string) : M (gmap string string) :=
  match country_codes with
  | [] => mret mapped_codes
  | country_code :: country_codes' =>
      mapped_codes ←
        try_except_LookupError
          (converted ← convert_country_code country_code output;
           mret (<[country_code := converted]> mapped_codes))
          (λ err,
             match errors with
             | errors_raise => raise err
             | errors_ignore =>
                 logger_info ("Skipping country/region " +:+ country_code);;
                 mret mapped_codes
             end);
      convert_valid_countries_loop country_codes' output errors mapped_codes
  end.

Definition convert_valid_countries (country_codes : list string)
    (output : output_format) (errors : errors_mode) : M (gmap string string) :=
  convert_valid_countries_loop country_codes output errors ∅.

End utils.

(** ** The loop of [_modularise_snakemake_graph] on the value it updates

    Every write of the routine goes to the one object [modulegraph]; the
    functions below give the value held there, step by step.  Lemma
    [modularise_run] relates them to the routine. *)

Definition rewrite_edge (prefix : string) (module_nodes : gset string)
    (edge : string * string) (mg : DiGraph) : outcome DiGraph :=
  if decide (({[edge.1; edge.2]} : gset string) ∖ module_nodes = ∅) then
    remove_edge edge.1 edge.2 mg
  else if decide ((edge.1 ∈ module_nodes) ∧ (edge.2 ∉ module_nodes)) then
    Ok (add_edge prefix edge.2 mg)
  else if decide ((edge.1 ∉ module_nodes) ∧ (edge.2 ∈ module_nodes)) then
    Ok (add_edge edge.1 prefix mg)
  else Ok mg.

Fixpoint rewrite_edges (prefix : string) (module_nodes : gset string)
    (es : list (string * string)) (mg : DiGraph) : outcome DiGraph :=
  match es with
  | [] => Ok mg
  | e :: es' =>
      match rewrite_edge prefix module_nodes e mg with
      | Ok mg' => rewrite_edges prefix module_nodes es' mg'
      | Raise x => Raise x
      end
  end.

Definition collapse_module (G : DiGraph) (labels : gmap string string)
    (prefix : string) (mg : DiGraph) : outcome DiGraph :=
  let module_nodes := module_nodes_of labels prefix in
  if decide (module_nodes = ∅) then Raise (prefix_not_found prefix)
  else
    match rewrite_edges prefix module_nodes (edge_list G)
            (add_node prefix (module_node_attrs prefix) mg) with
    | Ok mg' => Ok (remove_nodes_from module_nodes mg')
    | Raise x => Raise x
    end.

Fixpoint collapse_modules (G : DiGraph) (labels : gmap string string)
    (ps : list string) (mg : DiGraph) : outcome DiGraph :=
  match ps with
  | [] => Ok mg
  | p :: ps' =>
      match collapse_module G labels p mg with
      | Ok mg' => collapse_modules G labels ps' mg'
      | Raise x => Raise x
      end
  end.

(** The labels the routine works with: those of the input graph, cleaned. *)
Definition clean_labels (G : DiGraph) : gmap string string :=
  Py.replace_dquote <$> get_node_attributes G "label".

Definition modularise (G : DiGraph) (ps : list string) : outcome DiGraph :=
  collapse_modules G (clean_labels G) ps G.

(** ** Vocabulary of the specification *)

(** The group of a prefix: the nodes of [G] whose cleaned label starts
    with it. *)
Definition group (G : DiGraph) (p : string) : gset string :=
  module_nodes_of (clean_labels G) p.

(** The nodes that belong to the group of some prefix of [P]. *)
Definition grouped (G : DiGraph) (P : list string) : gset string :=
  ⋃ (group G <$> P).

(** No node lies in the groups of two entries of the sequence. *)
Fixpoint non_overlapping (G : DiGraph) (P : list string) : Prop :=
  match P with
  | [] => True
  | p :: P' => group G p ## grouped G P' ∧ non_overlapping G P'
  end.

(** The contract of the routine on its caller: every prefix names a
    non-empty group, no node is in two groups, and no prefix is already the
    identifier of a node (a proxy takes the prefix as its identifier). *)
Record valid_prefixes (G : DiGraph) (P : list string) : Prop := mk_valid {
  valid_found : Forall (λ p, group G p ≠ ∅) P;
  valid_apart : non_overlapping G P;
  valid_fresh : Forall (λ p, ¬ has_node G p) P
}.

(** No edge of the graph joins members of the groups of two different
    prefixes. *)
Definition no_joining_edge (G : DiGraph) (P : list string) : Prop :=
  ∀ u v p q, has_edge G u v → p ∈ P → q ∈ P →
             u ∈ group G p → v ∈ group G q → p = q.

(** The routine, started in [st] on the object at [r], returns an object
    that holds [G']. *)
Definition returns_graph (m : M loc) (st : State) (G' : DiGraph) : Prop :=
  ∃ l st', m st = (Ok l, st') ∧ heap st' !! l = Some G'.

(** ** Graphs of the scenarios *)

Definition labelled (l : string) : attrs := {["label" := l]}.

(** Nodes A and B of one module, C outside; edges C→A and A→B. *)
Definition scenario_graph : DiGraph :=
  mkDiGraph ∅
    (<["A" := labelled "module_x.rule1"]>
       (<["B" := labelled "module_x.rule2"]> (<["C" := labelled "other"]> ∅)))
    (<[("C", "A") := ∅]> (<[("A", "B") := ∅]> ∅)).

(** Two modules of one rule each, joined by the edge A→B. *)
Definition two_modules_graph : DiGraph :=
  mkDiGraph ∅
    (<["A" := labelled "m1.a"]> (<["B" := labelled "m2.b"]> ∅))
    (<[("A", "B") := ∅]> ∅).


Definition state_with (G : DiGraph) : State := mkState {[1%positive := G]} [].

(** A label as the dot reader delivers it: between double quotes. *)
Definition quoted (s : string) : string :=
  String Py.dquote (s +:+ String Py.dquote EmptyString).

(** A rule graph in the manner of the test file: rule 4 feeds two modules,
    both feed rule 0; the labels are quoted. *)
Definition pipeline_graph : DiGraph :=
  mkDiGraph ∅
    (<["0" := labelled (quoted "all")]>
       (<["1" := labelled (quoted "module_hydropower.download")]>
          (<["2" := labelled (quoted "module_hydropower.build")]>
             (<["3" := labelled (quoted "module_wind_pv.build")]>
                (<["4" := labelled (quoted "prepare")]> ∅)))))
    (<[("4", "1") := ∅]>
       (<[("1", "2") := ∅]>
          (<[("2", "0") := ∅]>
             (<[("4", "3") := ∅]> (<[("3", "0") := ∅]> ∅))))).

Definition pipeline_prefixes : list string :=
  ["module_hydropower"; "module_wind_pv"].

(** A dot reader that knows one file. *)
Definition one_file_reader (path : string) : outcome DiGraph :=
  if String.eqb path "tests/_example_files/rulegraph.dot" then Ok pipeline_graph
  else Raise (ValueError ("No such file: " +:+ path)).

(** Four records of ISO 3166-1, and a lookup over them that, like
    pycountry's, ignores case and tries every field. *)
Definition iso3166_excerpt : list Country :=
  [ mkCountry "BA" "BIH" "Bosnia and Herzegovina";
    mkCountry "FR" "FRA" "France";
    mkCountry "GB" "GBR" "United Kingdom";
    mkCountry "GR" "GRC" "Greece" ].

Definition country_matches (value : string) (c : Country) : bool :=
  String.eqb (Py.lower (alpha_2 c)) value
  || String.eqb (Py.lower (alpha_3 c)) value
  || String.eqb (Py.lower (name c)) value.

Definition excerpt_lookup (value : string) : outcome Country :=
  match find (country_matches (Py.lower value)) iso3166_excerpt with
  | Some c => Ok c
  | None => Raise (LookupError ("Could not find a record for '"
                                  +:+ Py.lower value +:+ "'"))
  end.

(** ** Notions used in the proofs *)

Definition lift_outcome {A B : Type} (b : B) (o : outcome A) : outcome B :=
  match o with
  | Ok _ => Ok b
  | Raise e => Raise e
  end.

(** [res] is what a computation yields when all it did was to bring the
    object at [l] along the steps of [pure]. *)
Definition tracks {A : Type} (l : loc) (h : gmap loc DiGraph) (ev : list Event)
    (a : A) (pure : outcome DiGraph) (res : outcome A * State) : Prop :=
  ∃ mg, res = (lift_outcome a pure, mkState (<[l := mg]> h) ev)
        ∧ ∀ G', pure = Ok G' → mg = G'.

(** Edges of the input graph between nodes not yet removed ([D] holds the
    removed ones) are still in the working graph; during the pass over
    module [Mn] this is asked only of the edges the pass has not met yet and
    of those it leaves alone. *)
Definition pending (G : DiGraph) (D Mn : gset string)
    (es : list (string * string)) (mg : DiGraph) : Prop :=
  ∀ a b, has_edge G a b → a ∉ D → b ∉ D →
         (a, b) ∈ es ∨ ¬ (a ∈ Mn ∧ b ∈ Mn) → has_edge mg a b.

Definition kept (G : DiGraph) (D : gset string) (mg : DiGraph) : Prop :=
  ∀ a b, has_edge G a b → a ∉ D → b ∉ D → has_edge mg a b.

(** Every edge of the working graph is an edge of the input graph between
    nodes not yet removed ([D]), or touches a proxy ([Q]). *)
Definition edges_inv (G : DiGraph) (D Q : gset string) (mg : DiGraph) : Prop :=
  ∀ a b, has_edge mg a b →
         (has_edge G a b ∧ (a ∉ D) ∧ (b ∉ D)) ∨ a ∈ Q ∨ b ∈ Q.

(** ** Notions used in the further properties *)

(** A graph object as networkx keeps it: every edge joins two nodes. *)
Definition well_formed (G : DiGraph) : Prop :=
  ∀ u v, has_edge G u v → has_node G u ∧ has_node G v.

(** [b] receives an edge from a member of the group of [p] and is not
    itself a member: the module of [p] has an output towards [b]. *)
Definition module_output (G : DiGraph) (p b : string) : Prop :=
  ∃ u, u ∈ group G p ∧ has_edge G u b ∧ b ∉ group G p.

(** [a] sends an edge to a member of the group of [p] and is not itself a
    member: the module of [p] has an input from [a]. *)
Definition module_input (G : DiGraph) (p a : string) : Prop :=
  ∃ v, v ∈ group G p ∧ has_edge G a v ∧ a ∉ group G p.

(** The shape of the edges of the working graph: an edge of the input
    graph between nodes not yet removed ([D]), or an output or an input of
    a module collapsed so far ([Q]), attached to its proxy. *)
Definition edges_shape (G : DiGraph) (D Q : gset string) (mg : DiGraph) : Prop :=
  ∀ a b, has_edge mg a b →
         (has_edge G a b ∧ (a ∉ D) ∧ (b ∉ D))
         ∨ (a ∈ Q ∧ module_output G a b)
         ∨ (b ∈ Q ∧ module_input G b a).

(** The nodes of the working graph come from the input graph or are
    proxies ([Q]). *)
Definition nodes_inv (G : DiGraph) (Q : gset string) (mg : DiGraph) : Prop :=
  ∀ n, has_node mg n → has_node G n ∨ n ∈ Q.

(** The working graph has no edge inside the module [Mn]. *)
Definition no_inside_edge (Mn : gset string) (mg : DiGraph) : Prop :=
  ∀ a b, has_edge mg a b → ¬ (a ∈ Mn ∧ b ∈ Mn).


(** The value that [convert_country_code] hands to the lookup (lines 44
    to 51 of utils.py). *)
Definition looked_up (input_country : string) : string :=
  if String.eqb (Py.lower input_country) "el" then "gr"
  else if String.eqb (Py.lower input_country) "uk" then "gb"
  else if String.eqb (Py.lower input_country) "bh" then "ba"
  else input_country.

(** What [convert_country_code] reads off the record found. *)
Definition formatted (r : Country) (output : output_format) : string :=
  match output with
  | out_alpha2 => alpha_2 r
  | out_alpha2_eu =>
      if String.eqb (alpha_2 r) "GB" then "UK"
      else if String.eqb (alpha_2 r) "GR" then "EL"
      else alpha_2 r
  | out_alpha3 => alpha_3 r
  | out_name => name r
  end.

Definition converted (countries_lookup : string → outcome Country)
    (input_country : string) (output : output_format) : outcome string :=
  match countries_lookup (looked_up input_country) with
  | Ok r => Ok (formatted r output)
  | Raise e => Raise e
  end.


(** A lookup over a list of records, in the manner of [excerpt_lookup]. *)
Definition lookup_in (db : list Country) (value : string) : outcome Country :=
  match find (country_matches (Py.lower value)) db with
  | Some c => Ok c
  | None => Raise (LookupError ("Could not find a record for '"
                                  +:+ Py.lower value +:+ "'"))
  end.

Definition iso3166_with_bahrain : list Country :=
  mkCountry "BH" "BHR" "Bahrain" :: iso3166_excerpt.

(** A logger whose level is above INFO: the message is dropped. *)
Definition quiet_logger (msg : string) : M unit := mret tt.

(** Every edge of the working graph carries the dictionary it has in the
    input graph, and an empty one when the input graph has no such edge. *)
Definition edge_attrs_inv (G mg : DiGraph) : Prop :=
  ∀ e d, edges mg !! e = Some d → d = default ∅ (edges G !! e).

(** * Proofs *)

(** ** The routine and the value it updates *)

Ltac run_step :=
  unfold add_node_at, add_edge_at, remove_edge_at, remove_nodes_from_at,
    edges_at, get_node_attributes_at, copy_at, load, store, alloc, raise,
    mbind, M_bind, mret, M_ret; simpl;
  rewrite ?lookup_total_insert_eq, ?insert_insert_eq.

Lemma tracks_Ok {A : Type} l h ev (a : A) mg :
  tracks l h ev a (Ok mg) (Ok a, mkState (<[l := mg]> h) ev).
Proof. exists mg. split; [done | by intros ? [= ->]]. Qed.

Lemma tracks_Raise {A : Type} l h ev (a : A) e mg :
  tracks l h ev a (Raise e) (Raise e, mkState (<[l := mg]> h) ev).
Proof. exists mg. split; [done | by intros ? [=]]. Qed.

Lemma rewrite_edge_at_run l h ev p Mn e mg :
  tracks l h ev tt (rewrite_edge p Mn e mg)
    (rewrite_edge_at l p Mn e (mkState (<[l := mg]> h) ev)).
Proof.
  unfold rewrite_edge, rewrite_edge_at.
  repeat case_decide; run_step;
    try apply tracks_Ok.
  unfold remove_edge. destruct (edges mg !! (e.1, e.2)); run_step.
  - apply tracks_Ok.
  - apply tracks_Raise.
Qed.

Lemma rewrite_edges_at_run l h ev p Mn es mg :
  tracks l h ev tt (rewrite_edges p Mn es mg)
    (for_each es (rewrite_edge_at l p Mn) (mkState (<[l := mg]> h) ev)).
Proof.
  revert mg. induction es as [|e es IH]; intros mg; simpl.
  - apply tracks_Ok.
  - destruct (rewrite_edge_at_run l h ev p Mn e mg) as (mg1 & Hrun & Hmg1).
    unfold mbind, M_bind. rewrite Hrun.
    destruct (rewrite_edge p Mn e mg) as [mg'|x]; simpl.
    + rewrite (Hmg1 mg' eq_refl). apply IH.
    + apply tracks_Raise.
Qed.

Lemma collapse_module_at_run r l h ev G labels p mg :
  r ≠ l → h !! r = Some G →
  tracks l h ev tt (collapse_module G labels p mg)
    (collapse_module_at r l labels p (mkState (<[l := mg]> h) ev)).
Proof.
  intros Hrl Hr. unfold collapse_module, collapse_module_at.
  run_step. case_decide.
  - apply tracks_Raise.
  - simpl. rewrite lookup_total_insert_ne by done.
    rewrite (lookup_total_correct _ _ _ Hr).
    destruct (rewrite_edges_at_run l h ev p (module_nodes_of labels p)
                (edge_list G) (add_node p (module_node_attrs p) mg))
      as (mg1 & Hrun & Hmg1).
    rewrite Hrun.
    destruct (rewrite_edges _ _ _ _) as [mg'|x]; simpl.
    + rewrite (Hmg1 mg' eq_refl). run_step. apply tracks_Ok.
    + apply tracks_Raise.
Qed.

Lemma collapse_modules_at_run r l h ev G labels ps mg :
  r ≠ l → h !! r = Some G →
  tracks l h ev tt (collapse_modules G labels ps mg)
    (for_each ps (collapse_module_at r l labels) (mkState (<[l := mg]> h) ev)).
Proof.
  intros Hrl Hr. revert mg. induction ps as [|p ps IH]; intros mg; simpl.
  - apply tracks_Ok.
  - destruct (collapse_module_at_run r l h ev G labels p mg Hrl Hr)
      as (mg1 & Hrun & Hmg1).
    unfold mbind, M_bind. rewrite Hrun.
    destruct (collapse_module G labels p mg) as [mg'|x]; simpl.
    + rewrite (Hmg1 mg' eq_refl). apply IH.
    + apply tracks_Raise.
Qed.

(** The routine copies the graph at [rulegraph] into a fresh object and
    does all its work there; nothing is written elsewhere, and nothing is
    asked of the surroundings. *)
Lemma modularise_run st r G ps :
  heap st !! r = Some G →
  tracks (fresh (dom (heap st))) (heap st) (events st)
    (fresh (dom (heap st))) (modularise G ps)
    (_modularise_snakemake_graph r ps st).
Proof.
  intros Hr. unfold _modularise_snakemake_graph, modularise.
  set (l := fresh (dom (heap st))).
  assert (r ≠ l) as Hrl.
  { intros ->. apply (is_fresh (dom (heap st))). by apply elem_of_dom. }
  run_step. rewrite (lookup_total_correct _ _ _ Hr).
  destruct (collapse_modules_at_run r l (heap st) (events st) G
              (clean_labels G) ps G Hrl Hr) as (mg1 & Hrun & Hmg1).
  fold l. unfold clean_labels in *. rewrite Hrun.
  destruct (collapse_modules _ _ _ _) as [mg'|x]; simpl.
  - rewrite (Hmg1 mg' eq_refl). apply tracks_Ok.
  - apply tracks_Raise.
Qed.

Lemma modularise_returns st r G ps G' :
  heap st !! r = Some G → modularise G ps = Ok G' →
  returns_graph (_modularise_snakemake_graph r ps) st G'.
Proof.
  intros Hr HG'.
  destruct (modularise_run st r G ps Hr) as (mg & Hrun & Hmg).
  rewrite HG' in Hrun. simpl in Hrun.
  eexists _, _. split; [exact Hrun|]. simpl.
  rewrite lookup_insert_eq. by rewrite (Hmg G' HG').
Qed.

(** ** The graph operations *)

Lemma has_edge_add_node n a G u v :
  has_edge (add_node n a G) u v ↔ has_edge G u v.
Proof. done. Qed.

Lemma has_edge_add_edge x y G u v :
  has_edge (add_edge x y G) u v ↔ (u, v) = (x, y) ∨ has_edge G u v.
Proof.
  unfold has_edge, add_edge. simpl.
  destruct (edges G !! (x, y)) as [d|] eqn:Hxy.
  - split; [by right | intros [->|]; [|done]].
    apply elem_of_dom. by exists d.
  - rewrite dom_insert_L. set_solver.
Qed.

Lemma remove_edge_Ok x y G :
  has_edge G x y →
  remove_edge x y G
  = Ok (mkDiGraph (graph_attr G) (nodes G) (delete (x, y) (edges G))).
Proof.
  unfold has_edge, remove_edge. intros [d Hd]%elem_of_dom. by rewrite Hd.
Qed.

Lemma has_edge_remove_edge x y G G' u v :
  remove_edge x y G = Ok G' →
  has_edge G' u v ↔ has_edge G u v ∧ (u, v) ≠ (x, y).
Proof.
  unfold remove_edge, has_edge.
  destruct (edges G !! (x, y)); intros [= <-]. simpl.
  rewrite dom_delete_L. set_solver.
Qed.

Lemma has_edge_remove_nodes_from S G u v :
  has_edge (remove_nodes_from S G) u v ↔ has_edge G u v ∧ (u ∉ S) ∧ (v ∉ S).
Proof.
  unfold has_edge, remove_nodes_from. simpl.
  rewrite !elem_of_dom. unfold is_Some.
  setoid_rewrite map_lookup_filter_Some. simpl. naive_solver.
Qed.

Lemma has_node_remove_nodes_from S G n :
  has_node (remove_nodes_from S G) n ↔ has_node G n ∧ (n ∉ S).
Proof.
  unfold has_node, remove_nodes_from. simpl.
  rewrite !elem_of_dom. unfold is_Some.
  setoid_rewrite map_lookup_filter_Some. simpl. naive_solver.
Qed.

Lemma elem_of_edge_list G u v : (u, v) ∈ edge_list G ↔ has_edge G u v.
Proof.
  unfold edge_list, has_edge. rewrite list_elem_of_fmap, elem_of_dom. split.
  - intros ([e d] & -> & Hd%elem_of_map_to_list). exists d. exact Hd.
  - intros [d Hd]. exists ((u, v), d). split; [done|].
    by apply elem_of_map_to_list.
Qed.

Lemma NoDup_edge_list G : NoDup (edge_list G).
Proof. apply NoDup_fst_map_to_list. Qed.

(** Group members are nodes of the input graph. *)
Lemma group_has_node G p n : n ∈ group G p → has_node G n.
Proof.
  unfold group, module_nodes_of, clean_labels, get_node_attributes, has_node.
  intros Hn. apply dom_filter_subseteq in Hn.
  rewrite dom_fmap_L in Hn. by apply dom_omap_subseteq in Hn.
Qed.

Lemma elem_of_grouped G P n : n ∈ grouped G P ↔ ∃ p, p ∈ P ∧ n ∈ group G p.
Proof.
  unfold grouped. rewrite elem_of_union_list. split.
  - intros (X & (p & -> & Hp)%list_elem_of_fmap & Hn). eauto.
  - intros (p & Hp & Hn). exists (group G p). split; [|done].
    by apply list_elem_of_fmap_2.
Qed.

(** ** One pass over the edges *)

(** [not set(edge) - module_nodes]: both endpoints are in the module. *)
Lemma inside_module_iff (Mn : gset string) (a b : string) :
  ({[a; b]} : gset string) ∖ Mn = ∅ ↔ a ∈ Mn ∧ b ∈ Mn.
Proof.
  split; [|set_solver].
  intros H. split; apply dec_stable; intros Hn.
  - assert (a ∈ ({[a; b]} : gset string) ∖ Mn) as Hin by set_solver.
    rewrite H in Hin. set_solver.
  - assert (b ∈ ({[a; b]} : gset string) ∖ Mn) as Hin by set_solver.
    rewrite H in Hin. set_solver.
Qed.

(** The four branches of the loop body. *)
Lemma rewrite_edge_cases p Mn e mg :
  ((e.1 ∈ Mn) ∧ (e.2 ∈ Mn) ∧ rewrite_edge p Mn e mg = remove_edge e.1 e.2 mg)
  ∨ ((e.1 ∈ Mn) ∧ (e.2 ∉ Mn) ∧ rewrite_edge p Mn e mg = Ok (add_edge p e.2 mg))
  ∨ ((e.1 ∉ Mn) ∧ (e.2 ∈ Mn) ∧ rewrite_edge p Mn e mg = Ok (add_edge e.1 p mg))
  ∨ ((e.1 ∉ Mn) ∧ (e.2 ∉ Mn) ∧ rewrite_edge p Mn e mg = Ok mg).
Proof.
  pose proof (inside_module_iff Mn e.1 e.2) as Hinside.
  unfold rewrite_edge. repeat case_decide; tauto.
Qed.

(** An edge with an endpoint outside the module outlives the pass. *)
Lemma rewrite_edge_keeps p Mn e mg mg' x y :
  rewrite_edge p Mn e mg = Ok mg' →
  has_edge mg x y → ¬ (x ∈ Mn ∧ y ∈ Mn) → has_edge mg' x y.
Proof.
  intros Hrw Hxy Hout.
  destruct (rewrite_edge_cases p Mn e mg)
    as [(H1 & H2 & Heq)|[(_ & _ & Heq)|[(_ & _ & Heq)|(_ & _ & Heq)]]];
    rewrite Heq in Hrw.
  - apply (has_edge_remove_edge _ _ _ _ x y) in Hrw. apply Hrw.
    split; [done|]. intros [= -> ->]. tauto.
  - injection Hrw as <-. apply has_edge_add_edge. by right.
  - injection Hrw as <-. apply has_edge_add_edge. by right.
  - by injection Hrw as <-.
Qed.

Lemma rewrite_edges_keeps p Mn es mg mg' x y :
  rewrite_edges p Mn es mg = Ok mg' →
  has_edge mg x y → ¬ (x ∈ Mn ∧ y ∈ Mn) → has_edge mg' x y.
Proof.
  revert mg. induction es as [|e es IH]; intros mg; simpl.
  - by intros [= <-].
  - destruct (rewrite_edge p Mn e mg) as [mg1|] eqn:He; [|done].
    intros Hrest Hxy Hout. apply (IH mg1); [done| |done].
    by apply (rewrite_edge_keeps p Mn e mg).
Qed.

(** A module input is redirected to the proxy. *)
Lemma rewrite_edges_input p Mn es mg mg' u v :
  rewrite_edges p Mn es mg = Ok mg' →
  (u, v) ∈ es → u ∉ Mn → v ∈ Mn → has_edge mg' u p.
Proof.
  revert mg. induction es as [|e es IH]; intros mg; simpl.
  - by intros _ ?%elem_of_nil.
  - destruct (rewrite_edge p Mn e mg) as [mg1|] eqn:He; [|done].
    intros Hrest [<-|Hin]%elem_of_cons Hu Hv; [|by apply (IH mg1)].
    apply (rewrite_edges_keeps p Mn es mg1); [done| |tauto].
    destruct (rewrite_edge_cases p Mn (u, v) mg)
      as [(H1 & _)|[(H1 & _)|[(_ & _ & Heq)|(_ & H2 & _)]]];
      simpl in *; try done.
    rewrite Heq in He. injection He as <-. apply has_edge_add_edge. by left.
Qed.

(** A module output is redirected from the proxy. *)
Lemma rewrite_edges_output p Mn es mg mg' u v :
  rewrite_edges p Mn es mg = Ok mg' →
  (u, v) ∈ es → u ∈ Mn → v ∉ Mn → has_edge mg' p v.
Proof.
  revert mg. induction es as [|e es IH]; intros mg; simpl.
  - by intros _ ?%elem_of_nil.
  - destruct (rewrite_edge p Mn e mg) as [mg1|] eqn:He; [|done].
    intros Hrest [<-|Hin]%elem_of_cons Hu Hv; [|by apply (IH mg1)].
    apply (rewrite_edges_keeps p Mn es mg1); [done| |tauto].
    destruct (rewrite_edge_cases p Mn (u, v) mg)
      as [(_ & H2 & _)|[(_ & _ & Heq)|[(H1 & _)|(H1 & _)]]];
      simpl in *; try done.
    rewrite Heq in He. injection He as <-. apply has_edge_add_edge. by left.
Qed.

(** ** The pass never fails on disjoint groups *)

Lemma rewrite_edges_total G D p Mn es mg :
  NoDup es → (∀ a b, (a, b) ∈ es → has_edge G a b) → Mn ## D →
  pending G D Mn es mg →
  ∃ mg', rewrite_edges p Mn es mg = Ok mg' ∧ pending G D Mn [] mg'.
Proof.
  intros Hnd Hes Hdisj. revert mg.
  induction Hnd as [|[a b] es Hnotin Hnd IH]; intros mg Hpend; simpl.
  - by exists mg.
  - assert (∀ mg1, (∀ x y, has_edge mg x y →
                           (x, y) ≠ (a, b) ∨ ¬ (a ∈ Mn ∧ b ∈ Mn) →
                           has_edge mg1 x y) →
                   pending G D Mn es mg1) as Hnext.
    { intros mg1 Hmg1 x y HG Hx Hy Hxy. apply Hmg1.
      - apply Hpend; try done. destruct Hxy; [left; by right | by right].
      - destruct (decide ((x, y) = (a, b))) as [[= -> ->]|]; [|by left].
        right. by destruct Hxy. }
    assert (∀ x y, (x, y) ∈ es → has_edge G x y) as Hes'.
    { intros x y Hxy. apply Hes. by right. }
    specialize (IH Hes').
    destruct (rewrite_edge_cases p Mn (a, b) mg)
      as [(Ha & Hb & Heq)|[(_ & _ & Heq)|[(_ & _ & Heq)|(_ & _ & Heq)]]];
      simpl in *; rewrite Heq.
    + assert (has_edge mg a b) as Hab.
      { apply Hpend; [apply Hes; by left | | |left; by left]; set_solver. }
      rewrite (remove_edge_Ok _ _ _ Hab). apply IH, Hnext.
      intros x y Hxy Hne. unfold has_edge in *. simpl.
      rewrite dom_delete_L. apply elem_of_difference. split; [done|].
      rewrite elem_of_singleton. tauto.
    + apply IH, Hnext. intros x y Hxy _. apply has_edge_add_edge. by right.
    + apply IH, Hnext. intros x y Hxy _. apply has_edge_add_edge. by right.
    + apply IH, Hnext. by intros x y Hxy _.
Qed.

Lemma collapse_module_total G D p mg :
  group G p ≠ ∅ → group G p ## D → kept G D mg →
  ∃ mg', collapse_module G (clean_labels G) p mg = Ok mg'
         ∧ kept G (D ∪ group G p) mg'.
Proof.
  intros Hfound Hdisj Hkept. unfold collapse_module. fold (group G p).
  rewrite decide_False by done.
  destruct (rewrite_edges_total G D p (group G p) (edge_list G)
              (add_node p (module_node_attrs p) mg))
    as (mg1 & -> & Hpend).
  - apply NoDup_edge_list.
  - intros a b. apply elem_of_edge_list.
  - done.
  - intros a b HG Ha Hb _. apply has_edge_add_node. by apply Hkept.
  - eexists. split; [done|]. intros a b HG Ha Hb.
    apply not_elem_of_union in Ha as [Ha Ha'].
    apply not_elem_of_union in Hb as [Hb Hb'].
    apply has_edge_remove_nodes_from. split_and!; try done.
    apply Hpend; try done. right. tauto.
Qed.

Lemma grouped_cons G p P : grouped G (p :: P) = group G p ∪ grouped G P.
Proof. done. Qed.

Lemma grouped_nil G : grouped G [] = ∅.
Proof. done. Qed.

Lemma collapse_modules_total G D ps mg :
  Forall (λ p, group G p ≠ ∅) ps → non_overlapping G ps →
  grouped G ps ## D → kept G D mg →
  ∃ mg', collapse_modules G (clean_labels G) ps mg = Ok mg'.
Proof.
  intros Hfound. revert D mg.
  induction Hfound as [|p ps Hp Hfound IH]; intros D mg Hapart HD Hkept; simpl.
  - by exists mg.
  - destruct Hapart as [Hp' Hapart]. rewrite grouped_cons in HD.
    destruct (collapse_module_total G D p mg) as (mg1 & -> & Hkept1);
      [done | set_solver | done |].
    apply (IH (D ∪ group G p)); [done | set_solver | done].
Qed.

(** Under the contract the routine returns a graph. *)
Lemma modularise_total G P :
  valid_prefixes G P → ∃ G', modularise G P = Ok G'.
Proof.
  intros [Hfound Hapart _]. apply (collapse_modules_total G ∅); try done.
  by intros a b.
Qed.

(** ** Where the edges of the working graph come from *)

Lemma rewrite_edge_inv G D Q p Mn e mg mg' :
  p ∈ Q → edges_inv G D Q mg → rewrite_edge p Mn e mg = Ok mg' →
  edges_inv G D Q mg'.
Proof.
  intros Hp Hinv Hrw a b Hab.
  destruct (rewrite_edge_cases p Mn e mg)
    as [(_ & _ & Heq)|[(_ & _ & Heq)|[(_ & _ & Heq)|(_ & _ & Heq)]]];
    rewrite Heq in Hrw.
  - apply (has_edge_remove_edge _ _ _ _ a b) in Hrw.
    apply Hinv. by apply Hrw.
  - injection Hrw as <-.
    apply has_edge_add_edge in Hab as [[= -> ->]|Hab]; [tauto | by apply Hinv].
  - injection Hrw as <-.
    apply has_edge_add_edge in Hab as [[= -> ->]|Hab]; [tauto | by apply Hinv].
  - injection Hrw as <-. by apply Hinv.
Qed.

Lemma rewrite_edges_inv G D Q p Mn es mg mg' :
  p ∈ Q → edges_inv G D Q mg → rewrite_edges p Mn es mg = Ok mg' →
  edges_inv G D Q mg'.
Proof.
  intros Hp. revert mg. induction es as [|e es IH]; intros mg Hinv; simpl.
  - by intros [= <-].
  - destruct (rewrite_edge p Mn e mg) as [mg1|] eqn:He; [|done].
    apply IH. by apply (rewrite_edge_inv G D Q p Mn e mg).
Qed.

Lemma collapse_module_inv G labels D Q p mg mg' :
  edges_inv G D Q mg → collapse_module G labels p mg = Ok mg' →
  edges_inv G (D ∪ module_nodes_of labels p) (Q ∪ {[p]}) mg'.
Proof.
  intros Hinv. unfold collapse_module. case_decide; [done|].
  destruct (rewrite_edges _ _ _ _) as [mg1|] eqn:Hpass; [|done].
  intros [= <-] a b (Hab & Ha & Hb)%has_edge_remove_nodes_from.
  apply (rewrite_edges_inv G D (Q ∪ {[p]})) in Hpass; [|set_solver|].
  - destruct (Hpass a b Hab) as [(HG & Ha' & Hb')|H']; [left|by right].
    split_and!; [done| |]; set_solver.
  - intros x y Hxy%has_edge_add_node.
    destruct (Hinv x y Hxy) as [?|[?|?]]; [by left | |]; right; set_solver.
Qed.

Lemma collapse_modules_inv G labels D Q ps mg mg' :
  edges_inv G D Q mg → collapse_modules G labels ps mg = Ok mg' →
  edges_inv G (D ∪ ⋃ (module_nodes_of labels <$> ps)) (Q ∪ list_to_set ps) mg'.
Proof.
  revert D Q mg. induction ps as [|p ps IH]; intros D Q mg Hinv; simpl.
  - intros [= <-]. by rewrite !(right_id_L ∅ (∪)).
  - destruct (collapse_module G labels p mg) as [mg1|] eqn:Hp; [|done].
    intros Hrest. apply (collapse_module_inv G labels D Q p) in Hp; [|done].
    apply (IH _ _ _ Hp) in Hrest.
    by rewrite !(assoc_L (∪)).
Qed.

(** ** Redirected edges stay *)

Lemma collapse_module_keeps G labels p mg mg' x y :
  collapse_module G labels p mg = Ok mg' → has_edge mg x y →
  x ∉ module_nodes_of labels p → y ∉ module_nodes_of labels p →
  has_edge mg' x y.
Proof.
  unfold collapse_module. case_decide; [done|].
  destruct (rewrite_edges _ _ _ _) as [mg1|] eqn:Hpass; [|done].
  intros [= <-] Hxy Hx Hy.
  apply has_edge_remove_nodes_from. split_and!; try done.
  apply (rewrite_edges_keeps _ _ _ _ _ x y) in Hpass; [done|done|tauto].
Qed.

Lemma collapse_modules_keeps G labels ps mg mg' x y :
  collapse_modules G labels ps mg = Ok mg' → has_edge mg x y →
  Forall (λ p, (x ∉ module_nodes_of labels p) ∧ (y ∉ module_nodes_of labels p)) ps →
  has_edge mg' x y.
Proof.
  intros Hrun Hxy Hout. revert mg Hrun Hxy.
  induction Hout as [|p ps [Hx Hy] Hout IH]; intros mg; simpl.
  - by intros [= <-].
  - destruct (collapse_module G labels p mg) as [mg1|] eqn:Hp; [|done].
    intros Hrest Hxy. apply (IH mg1); [done|].
    by apply (collapse_module_keeps G labels p mg).
Qed.

Lemma collapse_module_input G labels p mg mg' u v :
  collapse_module G labels p mg = Ok mg' → has_edge G u v →
  u ∉ module_nodes_of labels p → v ∈ module_nodes_of labels p →
  p ∉ module_nodes_of labels p → has_edge mg' u p.
Proof.
  unfold collapse_module. case_decide; [done|].
  destruct (rewrite_edges _ _ _ _) as [mg1|] eqn:Hpass; [|done].
  intros [= <-] HG Hu Hv Hp.
  apply has_edge_remove_nodes_from. split_and!; try done.
  apply (rewrite_edges_input _ _ _ _ _ u v) in Hpass; try done.
  by apply elem_of_edge_list.
Qed.

Lemma collapse_module_output G labels p mg mg' u v :
  collapse_module G labels p mg = Ok mg' → has_edge G u v →
  u ∈ module_nodes_of labels p → v ∉ module_nodes_of labels p →
  p ∉ module_nodes_of labels p → has_edge mg' p v.
Proof.
  unfold collapse_module. case_decide; [done|].
  destruct (rewrite_edges _ _ _ _) as [mg1|] eqn:Hpass; [|done].
  intros [= <-] HG Hu Hv Hp.
  apply has_edge_remove_nodes_from. split_and!; try done.
  apply (rewrite_edges_output _ _ _ _ _ u v) in Hpass; try done.
  by apply elem_of_edge_list.
Qed.

Lemma collapse_modules_input G labels ps mg mg' p u v :
  collapse_modules G labels ps mg = Ok mg' → p ∈ ps → has_edge G u v →
  v ∈ module_nodes_of labels p →
  Forall (λ q, (u ∉ module_nodes_of labels q) ∧ (p ∉ module_nodes_of labels q)) ps →
  has_edge mg' u p.
Proof.
  intros Hrun Hp HG Hv Hout. revert mg Hrun Hp.
  induction Hout as [|q ps [Hu Hq] Hout IH]; intros mg; simpl.
  - by intros _ ?%elem_of_nil.
  - destruct (collapse_module G labels q mg) as [mg1|] eqn:Hstep; [|done].
    intros Hrest [->|Hp]%elem_of_cons; [|by apply (IH mg1)].
    apply (collapse_modules_keeps G labels ps mg1); [done| |done].
    by apply (collapse_module_input G labels q mg mg1 u v).
Qed.

Lemma collapse_modules_output G labels ps mg mg' p u v :
  collapse_modules G labels ps mg = Ok mg' → p ∈ ps → has_edge G u v →
  u ∈ module_nodes_of labels p →
  Forall (λ q, (p ∉ module_nodes_of labels q) ∧ (v ∉ module_nodes_of labels q)) ps →
  has_edge mg' p v.
Proof.
  intros Hrun Hp HG Hv Hout. revert mg Hrun Hp.
  induction Hout as [|q ps [Hq Hu] Hout IH]; intros mg; simpl.
  - by intros _ ?%elem_of_nil.
  - destruct (collapse_module G labels q mg) as [mg1|] eqn:Hstep; [|done].
    intros Hrest [->|Hp]%elem_of_cons; [|by apply (IH mg1)].
    apply (collapse_modules_keeps G labels ps mg1); [done| |done].
    by apply (collapse_module_output G labels q mg mg1 u v).
Qed.

(** ** The nodes of the working graph *)

Lemma has_node_touch n N x :
  x ∈ dom (touch_node n N) ↔ x = n ∨ x ∈ dom N.
Proof.
  unfold touch_node. destruct (N !! n) as [d|] eqn:Hn.
  - split; [by right | intros [->|]; [|done]]. apply elem_of_dom. by exists d.
  - rewrite dom_insert_L. set_solver.
Qed.

Lemma has_node_add_node n a G x :
  has_node (add_node n a G) x ↔ x = n ∨ has_node G x.
Proof. unfold has_node, add_node. simpl. rewrite dom_insert_L. set_solver. Qed.

Lemma has_node_add_edge u v G x :
  has_node (add_edge u v G) x ↔ x = u ∨ x = v ∨ has_node G x.
Proof.
  unfold has_node, add_edge. simpl. rewrite !has_node_touch. tauto.
Qed.

Lemma has_node_remove_edge u v G G' x :
  remove_edge u v G = Ok G' → has_node G' x ↔ has_node G x.
Proof.
  unfold remove_edge. by destruct (edges G !! (u, v)); intros [= <-].
Qed.

(** The nodes a step of the pass can bring in: the proxy, and the far end
    of an edge that crosses the boundary of the module. *)
Lemma rewrite_edge_new_node p Mn e mg mg' n :
  rewrite_edge p Mn e mg = Ok mg' → has_node mg' n →
  has_node mg n ∨ n = p
  ∨ (n = e.2 ∧ e.1 ∈ Mn ∧ (e.2 ∉ Mn))
  ∨ (n = e.1 ∧ (e.1 ∉ Mn) ∧ e.2 ∈ Mn).
Proof.
  intros Hrw Hn.
  destruct (rewrite_edge_cases p Mn e mg)
    as [(_ & _ & Heq)|[(H1 & H2 & Heq)|[(H1 & H2 & Heq)|(_ & _ & Heq)]]];
    rewrite Heq in Hrw.
  - left. by apply (has_node_remove_edge _ _ _ _ n) in Hrw; apply Hrw.
  - injection Hrw as <-. apply has_node_add_edge in Hn. naive_solver.
  - injection Hrw as <-. apply has_node_add_edge in Hn. naive_solver.
  - injection Hrw as <-. by left.
Qed.

Lemma rewrite_edge_has_node p Mn e mg mg' n :
  rewrite_edge p Mn e mg = Ok mg' → has_node mg n → has_node mg' n.
Proof.
  intros Hrw Hn.
  destruct (rewrite_edge_cases p Mn e mg)
    as [(_ & _ & Heq)|[(_ & _ & Heq)|[(_ & _ & Heq)|(_ & _ & Heq)]]];
    rewrite Heq in Hrw.
  - by apply (has_node_remove_edge _ _ _ _ n) in Hrw; apply Hrw.
  - injection Hrw as <-. apply has_node_add_edge. tauto.
  - injection Hrw as <-. apply has_node_add_edge. tauto.
  - by injection Hrw as <-.
Qed.

Lemma rewrite_edges_has_node p Mn es mg mg' n :
  rewrite_edges p Mn es mg = Ok mg' → has_node mg n → has_node mg' n.
Proof.
  revert mg. induction es as [|e es IH]; intros mg; simpl.
  - by intros [= <-].
  - destruct (rewrite_edge p Mn e mg) as [mg1|] eqn:He; [|done].
    intros Hrest Hn. apply (IH mg1); [done|].
    by apply (rewrite_edge_has_node p Mn e mg).
Qed.

Lemma rewrite_edges_new_node p Mn es mg mg' n :
  rewrite_edges p Mn es mg = Ok mg' → has_node mg' n →
  has_node mg n ∨ n = p
  ∨ ∃ u v, (u, v) ∈ es
           ∧ ((n = v ∧ u ∈ Mn ∧ (v ∉ Mn)) ∨ (n = u ∧ (u ∉ Mn) ∧ v ∈ Mn)).
Proof.
  revert mg. induction es as [|[a b] es IH]; intros mg; simpl.
  - intros [= <-]. by left.
  - destruct (rewrite_edge p Mn (a, b) mg) as [mg1|] eqn:He; [|done].
    intros Hrest Hn.
    destruct (IH mg1 Hrest Hn) as [Hn1|[->|(u & v & Hin & Huv)]].
    + destruct (rewrite_edge_new_node p Mn (a, b) mg mg1 n He Hn1)
        as [?|[?|Hab]]; [by left | right; by left |].
      right; right. exists a, b. split; [by left|]. simpl in Hab. tauto.
    + right. by left.
    + right; right. exists u, v. split; [by right | done].
Qed.

(** A node outside the module outlives the step. *)
Lemma collapse_module_has_node G labels p mg mg' n :
  collapse_module G labels p mg = Ok mg' → has_node mg n →
  n ∉ module_nodes_of labels p → has_node mg' n.
Proof.
  unfold collapse_module. case_decide; [done|].
  destruct (rewrite_edges _ _ _ _) as [mg1|] eqn:Hpass; [|done].
  intros [= <-] Hn Hout. apply has_node_remove_nodes_from. split; [|done].
  apply (rewrite_edges_has_node _ _ _ _ _ n Hpass).
  apply has_node_add_node. by right.
Qed.

Lemma collapse_module_proxy G labels p mg mg' :
  collapse_module G labels p mg = Ok mg' →
  p ∉ module_nodes_of labels p → has_node mg' p.
Proof.
  unfold collapse_module. case_decide; [done|].
  destruct (rewrite_edges _ _ _ _) as [mg1|] eqn:Hpass; [|done].
  intros [= <-] Hout. apply has_node_remove_nodes_from. split; [|done].
  apply (rewrite_edges_has_node _ _ _ _ _ p Hpass).
  apply has_node_add_node. by left.
Qed.

Lemma collapse_modules_proxy G labels ps mg mg' p :
  collapse_modules G labels ps mg = Ok mg' → p ∈ ps →
  Forall (λ q, p ∉ module_nodes_of labels q) ps → has_node mg' p.
Proof.
  intros Hrun Hp Hout.
  assert (∀ qs mg0, collapse_modules G labels qs mg0 = Ok mg' →
            Forall (λ q, p ∉ module_nodes_of labels q) qs →
            has_node mg0 p → has_node mg' p) as Hkeep.
  { induction qs as [|q qs IH]; intros mg0; simpl.
    - by intros [= <-].
    - destruct (collapse_module G labels q mg0) as [mg1|] eqn:Hq; [|done].
      intros Hrest [Hpq Hqs]%Forall_cons Hn. apply (IH mg1); try done.
      by apply (collapse_module_has_node G labels q mg0). }
  revert mg Hrun Hp. induction Hout as [|q ps Hpq Hout IH]; intros mg; simpl.
  - by intros _ ?%elem_of_nil.
  - destruct (collapse_module G labels q mg) as [mg1|] eqn:Hq; [|done].
    intros Hrest [->|Hp]%elem_of_cons; [|by apply (IH mg1)].
    apply (Hkeep ps mg1); try done.
    by apply (collapse_module_proxy G labels q mg).
Qed.

(** When no edge joins two groups, a removed node never comes back: the
    nodes of the working graph stay clear of [D], the groups collapsed so
    far. *)
Lemma collapse_module_clear G P D p mg mg' :
  no_joining_edge G P → p ∈ P → ¬ has_node G p →
  (∀ n, n ∈ D → ∃ q, q ∈ P ∧ q ≠ p ∧ n ∈ group G q) →
  (∀ n, has_node mg n → n ∉ D) →
  collapse_module G (clean_labels G) p mg = Ok mg' →
  ∀ n, has_node mg' n → n ∉ D ∪ group G p.
Proof.
  intros Hjoin Hp Hfresh HD Hclear. unfold collapse_module. fold (group G p).
  case_decide; [done|].
  destruct (rewrite_edges _ _ _ _) as [mg1|] eqn:Hpass; [|done].
  intros [= <-] n [Hn Hout]%has_node_remove_nodes_from.
  apply not_elem_of_union. split; [|done]. intros HnD.
  destruct (HD n HnD) as (q & Hq & Hqp & Hnq).
  destruct (rewrite_edges_new_node _ _ _ _ _ n Hpass Hn)
    as [Hn0|[->|(u & v & Huv%elem_of_edge_list & Hcross)]].
  - apply has_node_add_node in Hn0 as [->|Hn0].
    + apply Hfresh. by apply (group_has_node G q).
    + by apply (Hclear n).
  - apply Hfresh. by apply (group_has_node G q).
  - destruct Hcross as [(-> & Hu & _)|(-> & _ & Hv)].
    + apply Hqp. symmetry. by apply (Hjoin u v p q).
    + apply Hqp. by apply (Hjoin u v q p).
Qed.

Lemma collapse_modules_clear G P D ps mg mg' :
  no_joining_edge G P → Forall (λ p, p ∈ P ∧ ¬ has_node G p) ps →
  non_overlapping G ps →
  (∀ n, n ∈ D → ∃ q, q ∈ P ∧ (q ∉ ps) ∧ n ∈ group G q) →
  (∀ n, has_node mg n → n ∉ D) →
  collapse_modules G (clean_labels G) ps mg = Ok mg' →
  ∀ n, has_node mg' n → n ∉ D ∪ grouped G ps.
Proof.
  intros Hjoin Hps. revert D mg.
  induction Hps as [|p ps [Hp Hfresh] Hps IH];
    intros D mg Hapart HD Hclear; simpl.
  - intros [= <-] n Hn. rewrite grouped_nil. set_solver.
  - destruct Hapart as [Hp' Hapart].
    destruct (collapse_module G (clean_labels G) p mg) as [mg1|] eqn:Hstep;
      [|done].
    intros Hrest n Hn. rewrite grouped_cons, (assoc_L (∪)).
    apply (IH (D ∪ group G p) mg1); try done.
    + intros m [Hm|Hm]%elem_of_union.
      * destruct (HD m Hm) as (q & Hq & Hqps & Hmq).
        exists q. split_and!; [done| |done]. set_solver.
      * exists p. split_and!; [done| |done].
        intros Hpps. apply (Hp' m Hm), elem_of_grouped. eauto.
    + apply (collapse_module_clear G P D p mg mg1); try done.
      intros m Hm. destruct (HD m Hm) as (q & Hq & Hqps & Hmq).
      exists q. split_and!; [done| |done]. set_solver.
Qed.

(** ** Sequencing *)



(** ** Properties of the routine *)

Lemma valid_prefix_not_grouped G P p q n :
  valid_prefixes G P → p ∈ P → n ∈ group G q → n ≠ p.
Proof.
  intros [_ _ Hfresh] Hp Hn ->.
  rewrite Forall_forall in Hfresh. apply (Hfresh p Hp).
  by apply (group_has_node G q).
Qed.

Lemma edges_inv_modularise G P G' :
  modularise G P = Ok G' →
  edges_inv G (grouped G P) (list_to_set P) G'.
Proof.
  intros Hrun. apply (collapse_modules_inv G _ ∅ ∅) in Hrun.
  - unfold grouped, group. by rewrite !(left_id_L ∅ (∪)) in Hrun.
  - intros a b Hab. left. set_solver.
Qed.

(** C5: under the contract, an edge whose two endpoints are in the group of
    one prefix is not in the returned graph. *)
Theorem internal_edges_removed st r G P :
  heap st !! r = Some G → valid_prefixes G P →
  ∃ G', returns_graph (_modularise_snakemake_graph r P) st G'
        ∧ ∀ p u v, p ∈ P → u ∈ group G p → v ∈ group G p → ¬ has_edge G' u v.
Proof.
  intros Hr Hvalid.
  destruct (modularise_total G P Hvalid) as [G' Hrun].
  exists G'. split; [by apply (modularise_returns st r G)|].
  intros p u v Hp Hu Hv Huv.
  destruct (edges_inv_modularise G P G' Hrun u v Huv)
    as [(_ & Hu' & _)|[Hu'|Hv']].
  - apply Hu', elem_of_grouped. eauto.
  - apply elem_of_list_to_set in Hu'.
    by apply (valid_prefix_not_grouped G P u p u).
  - apply elem_of_list_to_set in Hv'.
    by apply (valid_prefix_not_grouped G P v p v).
Qed.


(** Under the contract every proxy is a node of the returned graph. *)
Lemma proxies_present G P G' p :
  valid_prefixes G P → modularise G P = Ok G' → p ∈ P → has_node G' p.
Proof.
  intros Hvalid Hrun Hp.
  apply (collapse_modules_proxy G (clean_labels G) P G G' p); try done.
  apply Forall_forall. intros q Hq Hpq.
  by apply (valid_prefix_not_grouped G P p q p).
Qed.

(** What holds of the nodes: under the contract, and when no edge of the
    input joins two different groups, no member of a group is a node of the
    returned graph, and the proxy of every prefix is. *)
Theorem modules_apart_collapsed st r G P :
  heap st !! r = Some G → valid_prefixes G P → no_joining_edge G P →
  ∃ G', returns_graph (_modularise_snakemake_graph r P) st G'
        ∧ (∀ n, n ∈ grouped G P → ¬ has_node G' n)
        ∧ (∀ p, p ∈ P → has_node G' p).
Proof.
  intros Hr Hvalid Hjoin.
  destruct (modularise_total G P Hvalid) as [G' Hrun].
  exists G'. split; [by apply (modularise_returns st r G)|].
  split; [|intros p; by apply (proxies_present G P)].
  intros n Hn Hnode.
  destruct Hvalid as [_ Hapart Hfresh].
  apply (collapse_modules_clear G P ∅ P G G') in Hnode; try done.
  - set_solver.
  - rewrite Forall_forall in Hfresh. apply Forall_forall. eauto.
Qed.

Ltac by_computing := first [compute_done | vm_compute; reflexivity].

Lemma two_modules_valid : valid_prefixes two_modules_graph ["m1"; "m2"].
Proof.
  split.
  - repeat constructor; by_computing.
  - simpl. repeat split; by_computing.
  - repeat constructor; by_computing.
Qed.

(** C1: the scenario of two adjacent modules.  Prefixes "m1" and "m2" are
    within the contract, and A is in the group of "m1"; yet A is a node of
    the returned graph. *)
Theorem removed_rule_reappears :
  ∃ G', returns_graph (_modularise_snakemake_graph 1 ["m1"; "m2"])
          (state_with two_modules_graph) G'
        ∧ valid_prefixes two_modules_graph ["m1"; "m2"]
        ∧ "A" ∈ group two_modules_graph "m1"
        ∧ has_node G' "A"
        ∧ dom (nodes G') = {["A"; "m1"; "m2"]}.
Proof.
  eexists. split.
  { eexists _, _. split; vm_compute; reflexivity. }
  split; [apply two_modules_valid|].
  split_and!; by_computing.
Qed.

(** The routine is its loop, run on a fresh copy. *)
Lemma modularise_unfold st r G ps :
  heap st !! r = Some G →
  _modularise_snakemake_graph r ps st
  = let l := fresh (dom (heap st)) in
    let '(o, st') :=
      for_each ps (collapse_module_at r l (clean_labels G))
        (mkState (<[l := G]> (heap st)) (events st)) in
    (lift_outcome l o, st').
Proof.
  intros Hr. unfold _modularise_snakemake_graph. run_step.
  rewrite (lookup_total_correct _ _ _ Hr). unfold clean_labels.
  by destruct (for_each _ _ _) as [[[]|e] st'].
Qed.

Lemma fresh_loc_ne (h : gmap loc DiGraph) r G :
  h !! r = Some G → r ≠ fresh (dom h).
Proof. intros Hr ->. apply (is_fresh (dom h)). by apply elem_of_dom. Qed.



(** C6: with no prefix the routine returns a new object that holds the
    graph of the input object. *)
Theorem empty_prefix_list_copies st r G :
  heap st !! r = Some G →
  ∃ l st', _modularise_snakemake_graph r [] st = (Ok l, st')
           ∧ l ≠ r
           ∧ heap st' !! l = Some G
           ∧ heap st' !! r = Some G.
Proof.
  intros Hr. pose proof (fresh_loc_ne _ _ _ Hr) as Hrl.
  rewrite (modularise_unfold st r G [] Hr). simpl.
  eexists _, _. split; [done|]. simpl. split; [done|].
  rewrite lookup_insert_eq. rewrite lookup_insert_ne; done.
Qed.

(** C7: whatever the prefixes and whether the call returns or raises, the
    object the caller passed holds the same graph afterwards; so does every
    other object that existed, and nothing was asked of the surroundings. *)
Theorem input_graph_unchanged st r G ps o st' :
  heap st !! r = Some G →
  _modularise_snakemake_graph r ps st = (o, st') →
  heap st' !! r = Some G
  ∧ (∀ l G0, heap st !! l = Some G0 → heap st' !! l = Some G0)
  ∧ events st' = events st.
Proof.
  intros Hr Hrun.
  destruct (modularise_run st r G ps Hr) as (mg & Hrun' & _).
  rewrite Hrun in Hrun'. injection Hrun' as -> ->. simpl.
  assert (∀ l G0, heap st !! l = Some G0 →
            <[fresh (dom (heap st)) := mg]> (heap st) !! l = Some G0) as Hframe.
  { intros l G0 Hl. rewrite lookup_insert_ne; [done|].
    apply not_eq_sym. by apply (fresh_loc_ne _ _ G0). }
  split_and!; [by apply Hframe | done | done].
Qed.

(** C4: the scenario of the specification. *)
Theorem scenario_module_x st r :
  heap st !! r = Some scenario_graph →
  ∃ G', returns_graph (_modularise_snakemake_graph r ["module_x"]) st G'
        ∧ dom (nodes G') = {["C"; "module_x"]}
        ∧ dom (edges G') = {[("C", "module_x")]}.
Proof.
  intros Hr.
  assert (∃ G', modularise scenario_graph ["module_x"] = Ok G'
                ∧ dom (nodes G') = {["C"; "module_x"]}
                ∧ dom (edges G') = {[("C", "module_x")]})
    as (G' & Hrun & Hnodes & Hedges).
  { eexists. split; [vm_compute; reflexivity|]. split; by_computing. }
  exists G'. split; [|done]. by apply (modularise_returns st r scenario_graph).
Qed.


(** ** The entry operation *)

(** C8: a path that does not end in ".dot" is refused with the message
    below, and the state is as before: nothing was read, parsed or
    allocated. *)
Theorem only_dot_files (read_dot : string → outcome DiGraph)
    (snakemake_dotfile output_path : string) (prefixes : string + list string)
    (st : State) :
  Py.endswith snakemake_dotfile ".dot" = false →
  write_snakemake_modulegraph_png read_dot snakemake_dotfile output_path
    prefixes st
  = (Raise (ValueError "Only .dot files can be processed."), st).
Proof.
  intros Hext. unfold write_snakemake_modulegraph_png. by rewrite Hext.
Qed.

(** ** Country codes *)

(** C9: in a database where "FR" is found with alpha-3 code "FRA" and "GB"
    with alpha-2 code "GB", "FR" converts to "FRA" and "GB" converts to the
    EU code "UK"; and in any database "el" converts as "gr" does. *)
Theorem convert_country_code_examples (countries_lookup : string → outcome Country)
    (fr gb : Country) (st : State) :
  countries_lookup "FR" = Ok fr → alpha_3 fr = "FRA" →
  countries_lookup "GB" = Ok gb → alpha_2 gb = "GB" →
  (convert_country_code countries_lookup "FR" out_alpha3 st).1 = Ok "FRA"
  ∧ convert_country_code countries_lookup "el" out_alpha3 st
    = convert_country_code countries_lookup "gr" out_alpha3 st
  ∧ (convert_country_code countries_lookup "GB" out_alpha2_eu st).1 = Ok "UK".
Proof.
  intros Hfr Hfra Hgb Hgb2.
  unfold convert_country_code, lookup_at, emit, mbind, M_bind, mret, M_ret.
  simpl. rewrite Hfr, Hgb. simpl. rewrite Hfra, Hgb2. done.
Qed.


(** * The theorems at concrete inputs *)

Lemma pipeline_valid : valid_prefixes pipeline_graph pipeline_prefixes.
Proof.
  split.
  - repeat constructor; by_computing.
  - simpl. repeat split; by_computing.
  - repeat constructor; by_computing.
Qed.

(** What the routine makes of the pipeline: the two modules are two proxy
    nodes between rule 4 and rule 0. *)
Example pipeline_modularised :
  ∃ G', modularise pipeline_graph pipeline_prefixes = Ok G'
        ∧ dom (nodes G') = {["0"; "4"; "module_hydropower"; "module_wind_pv"]}
        ∧ dom (edges G')
          = {[("4", "module_hydropower"); ("module_hydropower", "0");
              ("4", "module_wind_pv"); ("module_wind_pv", "0")]}.
Proof. eexists. split; [vm_compute; reflexivity|]. split; by_computing. Qed.

Lemma internal_edges_removed_witness :
  heap (state_with pipeline_graph) !! 1%positive = Some pipeline_graph
  ∧ valid_prefixes pipeline_graph pipeline_prefixes
  ∧ ∃ G', returns_graph (_modularise_snakemake_graph 1 pipeline_prefixes)
            (state_with pipeline_graph) G'
          ∧ ∀ p u v, p ∈ pipeline_prefixes →
              u ∈ group pipeline_graph p → v ∈ group pipeline_graph p →
              ¬ has_edge G' u v.
Proof.
  split; [reflexivity|]. split; [apply pipeline_valid|].
  apply (internal_edges_removed (state_with pipeline_graph) 1 pipeline_graph
           pipeline_prefixes); [reflexivity | apply pipeline_valid].
Defined.



Lemma scenario_module_x_witness :
  heap (state_with scenario_graph) !! 1%positive = Some scenario_graph
  ∧ ∃ G', returns_graph (_modularise_snakemake_graph 1 ["module_x"])
            (state_with scenario_graph) G'
          ∧ dom (nodes G') = {["C"; "module_x"]}
          ∧ dom (edges G') = {[("C", "module_x")]}.
Proof.
  split; [reflexivity|].
  apply (scenario_module_x (state_with scenario_graph) 1). reflexivity.
Defined.

Lemma empty_prefix_list_copies_witness :
  heap (state_with pipeline_graph) !! 1%positive = Some pipeline_graph
  ∧ ∃ l st', _modularise_snakemake_graph 1 [] (state_with pipeline_graph)
             = (Ok l, st')
             ∧ l ≠ 1%positive
             ∧ heap st' !! l = Some pipeline_graph
             ∧ heap st' !! 1%positive = Some pipeline_graph.
Proof.
  split; [reflexivity|].
  apply (empty_prefix_list_copies (state_with pipeline_graph) 1 pipeline_graph).
  reflexivity.
Defined.

(** A call that succeeds on its first prefix and fails on its second. *)
Lemma input_graph_unchanged_witness :
  ∃ o st',
    _modularise_snakemake_graph 1 ["m1"; "module_fail"]
      (state_with two_modules_graph) = (o, st')
    ∧ o = Raise (ValueError "Prefix not found: module_fail.")
    ∧ heap st' !! 1%positive = Some two_modules_graph
    ∧ (∀ l G0, heap (state_with two_modules_graph) !! l = Some G0 →
               heap st' !! l = Some G0)
    ∧ events st' = events (state_with two_modules_graph).
Proof.
  eexists _, _. split; [vm_compute; reflexivity|]. split; [reflexivity|].
  eapply (input_graph_unchanged (state_with two_modules_graph) 1
            two_modules_graph ["m1"; "module_fail"]);
    [reflexivity | vm_compute; reflexivity].
Defined.

Lemma only_dot_files_witness :
  Py.endswith "some_file.txt" ".dot" = false
  ∧ write_snakemake_modulegraph_png one_file_reader "some_file.txt"
      "modulegraph.png" (inl "module_biofuels") (mkState ∅ [])
    = (Raise (ValueError "Only .dot files can be processed."), mkState ∅ []).
Proof.
  split; [reflexivity|].
  apply (only_dot_files one_file_reader "some_file.txt" "modulegraph.png"
           (inl "module_biofuels") (mkState ∅ [])).
  reflexivity.
Defined.

Lemma convert_country_code_examples_witness :
  (convert_country_code excerpt_lookup "FR" out_alpha3 (mkState ∅ [])).1
  = Ok "FRA"
  ∧ convert_country_code excerpt_lookup "el" out_alpha3 (mkState ∅ [])
    = convert_country_code excerpt_lookup "gr" out_alpha3 (mkState ∅ [])
  ∧ (convert_country_code excerpt_lookup "GB" out_alpha2_eu (mkState ∅ [])).1
    = Ok "UK".
Proof.
  apply (convert_country_code_examples excerpt_lookup
           (mkCountry "FR" "FRA" "France")
           (mkCountry "GB" "GBR" "United Kingdom") (mkState ∅ []));
    reflexivity.
Defined.


(** The tests of the repository, on the one-file reader: a wrong prefix is
    reported after the file has been read, and a right one ends with the
    modularised graph handed to the PNG writer. *)
Example test_modulegraph_incorrect_prefix :
  write_snakemake_modulegraph_png one_file_reader
    "tests/_example_files/rulegraph.dot" "modulegraph.png" (inl "module_fail")
    (mkState ∅ [])
  = (Raise (ValueError "Prefix not found: module_fail."),
     mkState (<[2%positive := add_node "module_fail"
                                (module_node_attrs "module_fail") pipeline_graph]>
                (<[1%positive := pipeline_graph]> ∅))
             [ReadDot "tests/_example_files/rulegraph.dot"]).
Proof. vm_compute. reflexivity. Qed.

Example test_modulegraph_success :
  ∃ G' st',
    write_snakemake_modulegraph_png one_file_reader
      "tests/_example_files/rulegraph.dot" "modulegraph.png"
      (inr pipeline_prefixes) (mkState ∅ [])
    = (Ok tt, st')
    ∧ events st' = [ReadDot "tests/_example_files/rulegraph.dot";
                    WritePng "modulegraph.png" G']
    ∧ modularise pipeline_graph pipeline_prefixes = Ok G'.
Proof.
  eexists _, _. split; [vm_compute; reflexivity|].
  split; vm_compute; reflexivity.
Qed.

(** * Further properties of the modularisation *)

(** ** The shape of the returned edges *)

Lemma rewrite_edge_shape G D Q p e mg mg' :
  p ∈ Q → has_edge G e.1 e.2 → edges_shape G D Q mg →
  rewrite_edge p (group G p) e mg = Ok mg' → edges_shape G D Q mg'.
Proof.
  intros Hp He Hshape Hrw a b Hab.
  destruct (rewrite_edge_cases p (group G p) e mg)
    as [(_ & _ & Heq)|[(H1 & H2 & Heq)|[(H1 & H2 & Heq)|(_ & _ & Heq)]]];
    rewrite Heq in Hrw.
  - apply (has_edge_remove_edge _ _ _ _ a b) in Hrw.
    apply Hshape. by apply Hrw.
  - injection Hrw as <-.
    apply has_edge_add_edge in Hab as [[= -> ->]|Hab]; [|by apply Hshape].
    right; left. split; [done|]. by exists e.1.
  - injection Hrw as <-.
    apply has_edge_add_edge in Hab as [[= -> ->]|Hab]; [|by apply Hshape].
    right; right. split; [done|]. by exists e.2.
  - injection Hrw as <-. by apply Hshape.
Qed.

Lemma rewrite_edges_shape G D Q p es mg mg' :
  p ∈ Q → (∀ a b, (a, b) ∈ es → has_edge G a b) → edges_shape G D Q mg →
  rewrite_edges p (group G p) es mg = Ok mg' → edges_shape G D Q mg'.
Proof.
  intros Hp. revert mg. induction es as [|[a b] es IH]; intros mg Hes Hshape; simpl.
  - by intros [= <-].
  - destruct (rewrite_edge p (group G p) (a, b) mg) as [mg1|] eqn:He; [|done].
    apply IH.
    + intros x y Hxy. apply Hes. by right.
    + apply (rewrite_edge_shape G D Q p (a, b) mg); try done.
      apply Hes. by left.
Qed.

Lemma collapse_module_shape G D Q p mg mg' :
  edges_shape G D Q mg →
  collapse_module G (clean_labels G) p mg = Ok mg' →
  edges_shape G (D ∪ group G p) (Q ∪ {[p]}) mg'.
Proof.
  intros Hshape. unfold collapse_module. fold (group G p).
  case_decide; [done|].
  destruct (rewrite_edges _ _ _ _) as [mg1|] eqn:Hpass; [|done].
  intros [= <-] a b (Hab & Ha & Hb)%has_edge_remove_nodes_from.
  apply (rewrite_edges_shape G D (Q ∪ {[p]})) in Hpass.
  - destruct (Hpass a b Hab) as [(HG & Ha' & Hb')|H']; [left|by right].
    split_and!; [done| |]; set_solver.
  - set_solver.
  - intros x y. apply elem_of_edge_list.
  - intros x y Hxy%has_edge_add_node.
    destruct (Hshape x y Hxy) as [?|[[? ?]|[? ?]]];
      [by left | right; left | right; right]; split; set_solver.
Qed.

Lemma collapse_modules_shape G D Q ps mg mg' :
  edges_shape G D Q mg →
  collapse_modules G (clean_labels G) ps mg = Ok mg' →
  edges_shape G (D ∪ grouped G ps) (Q ∪ list_to_set ps) mg'.
Proof.
  revert D Q mg. induction ps as [|p ps IH]; intros D Q mg Hshape; simpl.
  - intros [= <-]. by rewrite grouped_nil, !(right_id_L ∅ (∪)).
  - destruct (collapse_module G (clean_labels G) p mg) as [mg1|] eqn:Hp; [|done].
    intros Hrest. apply (collapse_module_shape G D Q p) in Hp; [|done].
    apply (IH _ _ _ Hp) in Hrest.
    by rewrite grouped_cons, !(assoc_L (∪)).
Qed.

Lemma edges_shape_modularise G P G' :
  modularise G P = Ok G' →
  edges_shape G (grouped G P) (list_to_set P) G'.
Proof.
  intros Hrun. apply (collapse_modules_shape G ∅ ∅) in Hrun.
  - by rewrite !(left_id_L ∅ (∪)) in Hrun.
  - intros a b Hab. left. set_solver.
Qed.

(** What the routine returned is what the loop left in the copy. *)
Lemma returns_graph_modularise st r G P G' :
  heap st !! r = Some G →
  returns_graph (_modularise_snakemake_graph r P) st G' →
  modularise G P = Ok G'.
Proof.
  intros Hr (l & st' & Hrun & Hl).
  destruct (modularise_run st r G P Hr) as (mg & Hrun' & Hmg).
  rewrite Hrun in Hrun'.
  destruct (modularise G P) as [G1|e]; [|done].
  injection Hrun' as -> ->. simpl in Hl.
  rewrite lookup_insert_eq in Hl. injection Hl as <-.
  by rewrite (Hmg G1 eq_refl).
Qed.

(** Whatever the prefixes, the routine invents no edge: an edge of the
    returned graph is an edge of the input graph between two nodes of no
    group, or it joins the proxy of a prefix and the outer end of an input
    edge that crossed the boundary of that prefix's group, in the direction
    of that edge. *)
Theorem returned_edges_shape st r G P G' :
  heap st !! r = Some G →
  returns_graph (_modularise_snakemake_graph r P) st G' →
  ∀ a b, has_edge G' a b →
    (has_edge G a b ∧ (a ∉ grouped G P) ∧ (b ∉ grouped G P))
    ∨ (a ∈ P ∧ module_output G a b)
    ∨ (b ∈ P ∧ module_input G b a).
Proof.
  intros Hr Hret a b Hab.
  apply (returns_graph_modularise st r G P G' Hr) in Hret.
  destruct (edges_shape_modularise G P G' Hret a b Hab)
    as [?|[[Ha%elem_of_list_to_set ?]|[Hb%elem_of_list_to_set ?]]];
    [by left | right; by left | right; by right].
Qed.

(** In a well-formed graph, with prefixes that are not node identifiers,
    the returned graph has no edge from a proxy to a proxy: a dependency
    between two modules is never drawn. *)
Theorem no_edge_between_proxies st r G P G' :
  heap st !! r = Some G → well_formed G →
  Forall (λ p, ¬ has_node G p) P →
  returns_graph (_modularise_snakemake_graph r P) st G' →
  ∀ p q, p ∈ P → q ∈ P → ¬ has_edge G' p q.
Proof.
  intros Hr Hwf Hfresh Hret p q Hp Hq Hpq.
  rewrite Forall_forall in Hfresh.
  apply (returns_graph_modularise st r G P G' Hr) in Hret.
  destruct (edges_shape_modularise G P G' Hret p q Hpq)
    as [(HG & _)|[(_ & u & _ & HG & _)|(_ & v & _ & HG & _)]].
  - apply (Hfresh p Hp). by apply (Hwf p q).
  - apply (Hfresh q Hq). by apply (Hwf u q).
  - apply (Hfresh p Hp). by apply (Hwf p v).
Qed.

(** ** Attributes of the nodes *)

Lemma touch_node_lookup x N n (d : attrs) :
  N !! n = Some d → touch_node x N !! n = Some d.
Proof.
  intros Hn. unfold touch_node. destruct (N !! x) eqn:Hx; [done|].
  rewrite lookup_insert_ne; [done|]. intros ->. congruence.
Qed.

Lemma rewrite_edge_node_attr p Mn e mg mg' n d :
  rewrite_edge p Mn e mg = Ok mg' →
  nodes mg !! n = Some d → nodes mg' !! n = Some d.
Proof.
  intros Hrw Hn.
  destruct (rewrite_edge_cases p Mn e mg)
    as [(_ & _ & Heq)|[(_ & _ & Heq)|[(_ & _ & Heq)|(_ & _ & Heq)]]];
    rewrite Heq in Hrw.
  - unfold remove_edge in Hrw.
    by destruct (edges mg !! (e.1, e.2)); simplify_eq.
  - injection Hrw as <-. simpl. by do 2 apply touch_node_lookup.
  - injection Hrw as <-. simpl. by do 2 apply touch_node_lookup.
  - by injection Hrw as <-.
Qed.

Lemma rewrite_edges_node_attr p Mn es mg mg' n d :
  rewrite_edges p Mn es mg = Ok mg' →
  nodes mg !! n = Some d → nodes mg' !! n = Some d.
Proof.
  revert mg. induction es as [|e es IH]; intros mg; simpl.
  - by intros [= <-].
  - destruct (rewrite_edge p Mn e mg) as [mg1|] eqn:He; [|done].
    intros Hrest Hn. apply (IH mg1); [done|].
    by apply (rewrite_edge_node_attr p Mn e mg).
Qed.

Lemma rewrite_edges_graph_attr p Mn es mg mg' :
  rewrite_edges p Mn es mg = Ok mg' → graph_attr mg' = graph_attr mg.
Proof.
  revert mg. induction es as [|e es IH]; intros mg; simpl.
  - by intros [= <-].
  - destruct (rewrite_edge p Mn e mg) as [mg1|] eqn:He; [|done].
    intros Hrest. rewrite (IH mg1 Hrest).
    destruct (rewrite_edge_cases p Mn e mg)
      as [(_ & _ & Heq)|[(_ & _ & Heq)|[(_ & _ & Heq)|(_ & _ & Heq)]]];
      rewrite Heq in He.
    + unfold remove_edge in He.
      by destruct (edges mg !! (e.1, e.2)); simplify_eq.
    + by injection He as <-.
    + by injection He as <-.
    + by injection He as <-.
Qed.

Lemma remove_nodes_from_node_attr S G n :
  n ∉ S → nodes (remove_nodes_from S G) !! n = nodes G !! n.
Proof.
  intros Hn. unfold remove_nodes_from. simpl.
  destruct (nodes G !! n) as [d|] eqn:Hd.
  - by apply map_lookup_filter_Some_2.
  - apply map_lookup_filter_None. left. done.
Qed.

(** A step leaves alone the dictionary of a node that is neither the
    proxy nor a member of the module. *)
Lemma collapse_module_node_attr G labels q mg mg' n d :
  collapse_module G labels q mg = Ok mg' → nodes mg !! n = Some d →
  n ≠ q → n ∉ module_nodes_of labels q → nodes mg' !! n = Some d.
Proof.
  unfold collapse_module. case_decide; [done|].
  destruct (rewrite_edges _ _ _ _) as [mg1|] eqn:Hpass; [|done].
  intros [= <-] Hn Hnq Hout.
  rewrite remove_nodes_from_node_attr by done.
  apply (rewrite_edges_node_attr _ _ _ _ _ n d Hpass).
  simpl. by rewrite lookup_insert_ne.
Qed.

Lemma collapse_modules_node_attr G labels ps mg mg' n d :
  collapse_modules G labels ps mg = Ok mg' → nodes mg !! n = Some d →
  Forall (λ q, n ≠ q ∧ (n ∉ module_nodes_of labels q)) ps →
  nodes mg' !! n = Some d.
Proof.
  intros Hrun Hn Hout. revert mg Hrun Hn.
  induction Hout as [|q ps [Hnq Hq] Hout IH]; intros mg; simpl.
  - by intros [= <-].
  - destruct (collapse_module G labels q mg) as [mg1|] eqn:Hstep; [|done].
    intros Hrest Hn. apply (IH mg1); [done|].
    by apply (collapse_module_node_attr G labels q mg).
Qed.

Lemma collapse_modules_graph_attr G labels ps mg mg' :
  collapse_modules G labels ps mg = Ok mg' → graph_attr mg' = graph_attr mg.
Proof.
  revert mg. induction ps as [|q ps IH]; intros mg; simpl.
  - by intros [= <-].
  - destruct (collapse_module G labels q mg) as [mg1|] eqn:Hstep; [|done].
    intros Hrest. rewrite (IH mg1 Hrest).
    unfold collapse_module in Hstep. case_decide; [done|].
    destruct (rewrite_edges _ _ _ _) as [mg2|] eqn:Hpass; [|done].
    injection Hstep as <-. simpl.
    by rewrite (rewrite_edges_graph_attr _ _ _ _ _ Hpass).
Qed.

(** The rules that are in no group come out as they went in: the routine
    keeps the attribute dictionary of every node that is in no group and is
    not named like a prefix, and the attributes of the graph. *)
Theorem outside_nodes_keep_attributes st r G P G' :
  heap st !! r = Some G →
  returns_graph (_modularise_snakemake_graph r P) st G' →
  graph_attr G' = graph_attr G
  ∧ ∀ n d, nodes G !! n = Some d → n ∉ grouped G P → n ∉ P →
           nodes G' !! n = Some d.
Proof.
  intros Hr Hret.
  apply (returns_graph_modularise st r G P G' Hr) in Hret.
  split; [by apply (collapse_modules_graph_attr G (clean_labels G) P G)|].
  intros n d Hn Hout HnP.
  apply (collapse_modules_node_attr G (clean_labels G) P G G'); try done.
  apply Forall_forall. intros q Hq. split.
  - by intros ->.
  - intros Hnq. apply Hout, elem_of_grouped. eauto.
Qed.

(** ** The attributes of the proxies *)

Lemma collapse_module_nodes_inv G Q p mg mg' :
  well_formed G → nodes_inv G Q mg →
  collapse_module G (clean_labels G) p mg = Ok mg' →
  nodes_inv G (Q ∪ {[p]}) mg'.
Proof.
  intros Hwf Hinv. unfold collapse_module. case_decide; [done|].
  destruct (rewrite_edges _ _ _ _) as [mg1|] eqn:Hpass; [|done].
  intros [= <-] n [Hn _]%has_node_remove_nodes_from.
  destruct (rewrite_edges_new_node _ _ _ _ _ n Hpass Hn)
    as [Hn0|[->|(u & v & Huv%elem_of_edge_list & Hcross)]].
  - apply has_node_add_node in Hn0 as [->|Hn0]; [right; set_solver|].
    destruct (Hinv n Hn0); [by left | right; set_solver].
  - right. set_solver.
  - left. destruct (Hwf u v Huv) as [Hu Hv].
    by destruct Hcross as [(-> & _)|(-> & _)].
Qed.

Lemma collapse_module_proxy_attr G labels p mg mg' :
  collapse_module G labels p mg = Ok mg' → nodes mg !! p = None →
  p ∉ module_nodes_of labels p →
  nodes mg' !! p = Some (module_node_attrs p).
Proof.
  unfold collapse_module. case_decide; [done|].
  destruct (rewrite_edges _ _ _ _) as [mg1|] eqn:Hpass; [|done].
  intros [= <-] Hnone Hout.
  rewrite remove_nodes_from_node_attr by done.
  apply (rewrite_edges_node_attr _ _ _ _ _ _ _ Hpass).
  simpl. rewrite lookup_insert_eq, Hnone. simpl.
  by rewrite (right_id_L ∅ (∪)).
Qed.

Lemma collapse_modules_proxy_attr G Q ps mg mg' p :
  well_formed G → nodes_inv G Q mg → p ∉ Q → ¬ has_node G p →
  NoDup ps → p ∈ ps → Forall (λ q, p ∉ group G q) ps →
  collapse_modules G (clean_labels G) ps mg = Ok mg' →
  nodes mg' !! p = Some (module_node_attrs p).
Proof.
  intros Hwf Hinv HpQ Hfresh Hnd Hp Hout. revert Q mg Hinv HpQ Hp Hout.
  induction Hnd as [|q ps Hq Hnd IH]; intros Q mg Hinv HpQ Hp Hout; simpl.
  - by apply elem_of_nil in Hp.
  - apply Forall_cons in Hout as [Hpq Hout].
    destruct (collapse_module G (clean_labels G) q mg) as [mg1|] eqn:Hstep;
      [|done].
    intros Hrest. destruct (decide (p = q)) as [->|Hne].
    + apply (collapse_modules_node_attr G (clean_labels G) ps mg1 mg');
        [done| |].
      * apply (collapse_module_proxy_attr G (clean_labels G) q mg);
          [done| |done].
        apply not_elem_of_dom. intros Hin.
        destruct (Hinv q Hin); done.
      * apply Forall_forall. intros q' Hq'. split; [by intros ->|].
        rewrite Forall_forall in Hout. by apply Hout.
    + apply (IH (Q ∪ {[q]}) mg1); try done.
      * by apply (collapse_module_nodes_inv G Q q mg).
      * set_solver.
      * apply elem_of_cons in Hp as [?|?]; done.
Qed.

Lemma valid_NoDup G P :
  Forall (λ p, group G p ≠ ∅) P → non_overlapping G P → NoDup P.
Proof.
  induction 1 as [|p P Hp Hfound IH]; simpl; [constructor|].
  intros [Hdisj Hapart]. constructor; [|by apply IH].
  intros Hin. apply Hp. apply set_eq. intros n. split; [|set_solver].
  intros Hn. exfalso. apply (Hdisj n Hn), elem_of_grouped. eauto.
Qed.

(** Under the contract, on a well-formed graph, the proxy of every prefix
    carries exactly the marker attributes: its label is the prefix, its
    color "0 0 0" and its style "diagonals". *)
Theorem proxy_attributes st r G P :
  heap st !! r = Some G → valid_prefixes G P → well_formed G →
  ∃ G', returns_graph (_modularise_snakemake_graph r P) st G'
        ∧ ∀ p, p ∈ P →
            nodes G' !! p
            = Some (<["label" := p]>
                      (<["color" := "0 0 0"]> (<["style" := "diagonals"]> ∅))).
Proof.
  intros Hr Hvalid Hwf.
  destruct (modularise_total G P Hvalid) as [G' Hrun].
  exists G'. split; [by apply (modularise_returns st r G)|].
  intros p Hp. pose proof Hvalid as [Hfound Hapart Hfresh].
  rewrite Forall_forall in Hfresh.
  apply (collapse_modules_proxy_attr G ∅ P G G' p); try done.
  - intros n Hn. by left.
  - by apply Hfresh.
  - by apply (valid_NoDup G).
  - apply Forall_forall. intros q Hq Hpq.
    by apply (valid_prefix_not_grouped G P p q p).
Qed.

(** ** The returned graph, exactly, when modules are apart *)

Lemma collapse_modules_nodes_inv G Q ps mg mg' :
  well_formed G → nodes_inv G Q mg →
  collapse_modules G (clean_labels G) ps mg = Ok mg' →
  nodes_inv G (Q ∪ list_to_set ps) mg'.
Proof.
  intros Hwf. revert Q mg. induction ps as [|p ps IH]; intros Q mg Hinv; simpl.
  - intros [= <-]. by rewrite (right_id_L ∅ (∪)).
  - destruct (collapse_module G (clean_labels G) p mg) as [mg1|] eqn:Hp; [|done].
    intros Hrest. apply (collapse_module_nodes_inv G Q p) in Hp; try done.
    apply (IH _ _ Hp) in Hrest. by rewrite (assoc_L (∪)).
Qed.

Lemma collapse_modules_has_node G labels ps mg mg' n :
  collapse_modules G labels ps mg = Ok mg' → has_node mg n →
  Forall (λ q, n ∉ module_nodes_of labels q) ps → has_node mg' n.
Proof.
  intros Hrun Hn Hout. revert mg Hrun Hn.
  induction Hout as [|q ps Hq Hout IH]; intros mg; simpl.
  - by intros [= <-].
  - destruct (collapse_module G labels q mg) as [mg1|] eqn:Hstep; [|done].
    intros Hrest Hn. apply (IH mg1); [done|].
    by apply (collapse_module_has_node G labels q mg).
Qed.

Lemma not_grouped_Forall G P n :
  n ∉ grouped G P → Forall (λ q, n ∉ group G q) P.
Proof.
  intros Hn. apply Forall_forall. intros q Hq Hnq.
  apply Hn, elem_of_grouped. eauto.
Qed.

Lemma modularise_exact G P G' :
  valid_prefixes G P → no_joining_edge G P → well_formed G →
  modularise G P = Ok G' →
  (∀ n, has_node G' n ↔ (has_node G n ∧ (n ∉ grouped G P)) ∨ n ∈ P)
  ∧ (∀ a b, has_edge G' a b ↔
       (has_edge G a b ∧ (a ∉ grouped G P) ∧ (b ∉ grouped G P))
       ∨ (a ∈ P ∧ module_output G a b)
       ∨ (b ∈ P ∧ module_input G b a)).
Proof.
  intros Hvalid Hjoin Hwf Hrun.
  pose proof Hvalid as [Hfound Hapart Hfresh].
  assert (∀ p, p ∈ P → Forall (λ q, p ∉ group G q) P) as Hproxy.
  { intros p Hp. apply Forall_forall. intros q Hq Hpq.
    by apply (valid_prefix_not_grouped G P p q p). }
  split.
  - intros n. split.
    + intros Hn.
      destruct (collapse_modules_nodes_inv G ∅ P G G' Hwf) with (n := n)
        as [HG|HP]; try done.
      * intros m Hm. by left.
      * left. split; [done|].
        apply (collapse_modules_clear G P ∅ P G G') in Hn; try done.
        -- set_solver.
        -- rewrite Forall_forall in Hfresh. apply Forall_forall. eauto.
      * right. set_solver.
    + intros [[HG Hout]|Hp].
      * apply (collapse_modules_has_node G (clean_labels G) P G G');
          try done.
        by apply not_grouped_Forall.
      * by apply (proxies_present G P).
  - intros a b. split.
    + intros Hab.
      destruct (edges_shape_modularise G P G' Hrun a b Hab)
        as [?|[[Ha%elem_of_list_to_set ?]|[Hb%elem_of_list_to_set ?]]];
        [by left | right; by left | right; by right].
    + intros [(HG & Ha & Hb)|[(Ha & u & Hu & HG & Hb)|(Hb & v & Hv & HG & Ha)]].
      * apply (collapse_modules_keeps G (clean_labels G) P G G'); try done.
        apply not_grouped_Forall in Ha, Hb.
        rewrite Forall_forall in Ha, Hb. apply Forall_forall.
        intros q Hq. split; [by apply Ha | by apply Hb].
      * apply (collapse_modules_output G (clean_labels G) P G G' a u b);
          try done.
        specialize (Hproxy a Ha). rewrite Forall_forall in Hproxy.
        apply Forall_forall. intros q Hq. split; [by apply Hproxy|].
        intros Hbq. apply Hb. by rewrite (Hjoin u b a q).
      * apply (collapse_modules_input G (clean_labels G) P G G' b a v);
          try done.
        specialize (Hproxy b Hb). rewrite Forall_forall in Hproxy.
        apply Forall_forall. intros q Hq. split; [|by apply Hproxy].
        intros Haq. apply Ha. by rewrite <- (Hjoin a v q b).
Qed.

(** Under the contract, on a well-formed graph in which no edge joins two
    different groups, the returned graph is the input graph with every
    group contracted to its proxy: its nodes are the nodes of no group and
    the proxies; its edges are the edges between nodes of no group, and one
    edge from (to) a proxy for every node that a member of its group has an
    edge to (from). *)
Theorem modules_apart_exact st r G P :
  heap st !! r = Some G → valid_prefixes G P → no_joining_edge G P →
  well_formed G →
  ∃ G', returns_graph (_modularise_snakemake_graph r P) st G'
        ∧ (∀ n, has_node G' n ↔ (has_node G n ∧ (n ∉ grouped G P)) ∨ n ∈ P)
        ∧ (∀ a b, has_edge G' a b ↔
             (has_edge G a b ∧ (a ∉ grouped G P) ∧ (b ∉ grouped G P))
             ∨ (a ∈ P ∧ module_output G a b)
             ∨ (b ∈ P ∧ module_input G b a)).
Proof.
  intros Hr Hvalid Hjoin Hwf.
  destruct (modularise_total G P Hvalid) as [G' Hrun].
  exists G'. split; [by apply (modularise_returns st r G)|].
  by apply modularise_exact.
Qed.

(** ** The further properties at concrete inputs *)

Lemma well_formed_check G :
  Forall (λ e, e.1 ∈ dom (nodes G) ∧ e.2 ∈ dom (nodes G)) (edge_list G) →
  well_formed G.
Proof.
  intros Hall u v Huv%elem_of_edge_list.
  rewrite Forall_forall in Hall. apply (Hall (u, v) Huv).
Qed.

Lemma no_joining_edge_check G P :
  Forall (λ e, Forall (λ p, Forall (λ q,
     e.1 ∈ group G p → e.2 ∈ group G q → p = q) P) P) (edge_list G) →
  no_joining_edge G P.
Proof.
  intros Hall u v p q Huv%elem_of_edge_list Hp Hq Hu Hv.
  rewrite Forall_forall in Hall. specialize (Hall (u, v) Huv).
  rewrite Forall_forall in Hall. specialize (Hall p Hp).
  rewrite Forall_forall in Hall. by apply (Hall q Hq).
Qed.

Lemma pipeline_well_formed : well_formed pipeline_graph.
Proof. apply well_formed_check. by_computing. Qed.

Lemma pipeline_modules_apart : no_joining_edge pipeline_graph pipeline_prefixes.
Proof. apply no_joining_edge_check. by_computing. Qed.

Lemma pipeline_returns :
  ∃ G', returns_graph (_modularise_snakemake_graph 1 pipeline_prefixes)
          (state_with pipeline_graph) G'.
Proof. eexists. eexists _, _. split; vm_compute; reflexivity. Qed.

Lemma modules_apart_collapsed_witness :
  heap (state_with pipeline_graph) !! 1%positive = Some pipeline_graph
  ∧ valid_prefixes pipeline_graph pipeline_prefixes
  ∧ no_joining_edge pipeline_graph pipeline_prefixes
  ∧ ∃ G', returns_graph (_modularise_snakemake_graph 1 pipeline_prefixes)
            (state_with pipeline_graph) G'
          ∧ (∀ n, n ∈ grouped pipeline_graph pipeline_prefixes → ¬ has_node G' n)
          ∧ (∀ p, p ∈ pipeline_prefixes → has_node G' p).
Proof.
  split; [reflexivity|]. split; [apply pipeline_valid|].
  split; [apply pipeline_modules_apart|].
  apply (modules_apart_collapsed (state_with pipeline_graph) 1 pipeline_graph
           pipeline_prefixes);
    [reflexivity | apply pipeline_valid | apply pipeline_modules_apart].
Defined.

Lemma returned_edges_shape_witness :
  ∃ G', heap (state_with pipeline_graph) !! 1%positive = Some pipeline_graph
        ∧ returns_graph (_modularise_snakemake_graph 1 pipeline_prefixes)
            (state_with pipeline_graph) G'
        ∧ ∀ a b, has_edge G' a b →
            (has_edge pipeline_graph a b
             ∧ (a ∉ grouped pipeline_graph pipeline_prefixes)
             ∧ (b ∉ grouped pipeline_graph pipeline_prefixes))
            ∨ (a ∈ pipeline_prefixes ∧ module_output pipeline_graph a b)
            ∨ (b ∈ pipeline_prefixes ∧ module_input pipeline_graph b a).
Proof.
  destruct pipeline_returns as [G' Hret]. exists G'.
  split; [reflexivity|]. split; [exact Hret|].
  apply (returned_edges_shape (state_with pipeline_graph) 1 pipeline_graph
           pipeline_prefixes G'); [reflexivity | exact Hret].
Defined.

Lemma no_edge_between_proxies_witness :
  ∃ G', heap (state_with pipeline_graph) !! 1%positive = Some pipeline_graph
        ∧ well_formed pipeline_graph
        ∧ Forall (λ p, ¬ has_node pipeline_graph p) pipeline_prefixes
        ∧ returns_graph (_modularise_snakemake_graph 1 pipeline_prefixes)
            (state_with pipeline_graph) G'
        ∧ ∀ p q, p ∈ pipeline_prefixes → q ∈ pipeline_prefixes →
                 ¬ has_edge G' p q.
Proof.
  destruct pipeline_returns as [G' Hret]. exists G'.
  split; [reflexivity|]. split; [apply pipeline_well_formed|].
  split; [apply pipeline_valid|]. split; [exact Hret|].
  apply (no_edge_between_proxies (state_with pipeline_graph) 1 pipeline_graph
           pipeline_prefixes G');
    [reflexivity | apply pipeline_well_formed | apply pipeline_valid
     | exact Hret].
Defined.

Lemma outside_nodes_keep_attributes_witness :
  ∃ G', heap (state_with pipeline_graph) !! 1%positive = Some pipeline_graph
        ∧ returns_graph (_modularise_snakemake_graph 1 pipeline_prefixes)
            (state_with pipeline_graph) G'
        ∧ graph_attr G' = graph_attr pipeline_graph
        ∧ ∀ n d, nodes pipeline_graph !! n = Some d →
                 n ∉ grouped pipeline_graph pipeline_prefixes →
                 n ∉ pipeline_prefixes → nodes G' !! n = Some d.
Proof.
  destruct pipeline_returns as [G' Hret]. exists G'.
  split; [reflexivity|]. split; [exact Hret|].
  apply (outside_nodes_keep_attributes (state_with pipeline_graph) 1
           pipeline_graph pipeline_prefixes G'); [reflexivity | exact Hret].
Defined.

Lemma proxy_attributes_witness :
  heap (state_with pipeline_graph) !! 1%positive = Some pipeline_graph
  ∧ valid_prefixes pipeline_graph pipeline_prefixes
  ∧ well_formed pipeline_graph
  ∧ ∃ G', returns_graph (_modularise_snakemake_graph 1 pipeline_prefixes)
            (state_with pipeline_graph) G'
          ∧ ∀ p, p ∈ pipeline_prefixes →
              nodes G' !! p
              = Some (<["label" := p]>
                        (<["color" := "0 0 0"]> (<["style" := "diagonals"]> ∅))).
Proof.
  split; [reflexivity|]. split; [apply pipeline_valid|].
  split; [apply pipeline_well_formed|].
  apply (proxy_attributes (state_with pipeline_graph) 1 pipeline_graph
           pipeline_prefixes);
    [reflexivity | apply pipeline_valid | apply pipeline_well_formed].
Defined.

Lemma modules_apart_exact_witness :
  heap (state_with pipeline_graph) !! 1%positive = Some pipeline_graph
  ∧ valid_prefixes pipeline_graph pipeline_prefixes
  ∧ no_joining_edge pipeline_graph pipeline_prefixes
  ∧ well_formed pipeline_graph
  ∧ ∃ G', returns_graph (_modularise_snakemake_graph 1 pipeline_prefixes)
            (state_with pipeline_graph) G'
          ∧ (∀ n, has_node G' n ↔
               (has_node pipeline_graph n
                ∧ (n ∉ grouped pipeline_graph pipeline_prefixes))
               ∨ n ∈ pipeline_prefixes)
          ∧ (∀ a b, has_edge G' a b ↔
               (has_edge pipeline_graph a b
                ∧ (a ∉ grouped pipeline_graph pipeline_prefixes)
                ∧ (b ∉ grouped pipeline_graph pipeline_prefixes))
               ∨ (a ∈ pipeline_prefixes ∧ module_output pipeline_graph a b)
               ∨ (b ∈ pipeline_prefixes ∧ module_input pipeline_graph b a)).
Proof.
  split; [reflexivity|]. split; [apply pipeline_valid|].
  split; [apply pipeline_modules_apart|]. split; [apply pipeline_well_formed|].
  apply (modules_apart_exact (state_with pipeline_graph) 1 pipeline_graph
           pipeline_prefixes);
    [reflexivity | apply pipeline_valid | apply pipeline_modules_apart
     | apply pipeline_well_formed].
Defined.

(** ** Errors of the routine *)

Lemma collapse_modules_app G labels ps qs mg :
  collapse_modules G labels (ps ++ qs) mg
  = match collapse_modules G labels ps mg with
    | Ok mg' => collapse_modules G labels qs mg'
    | Raise x => Raise x
    end.
Proof.
  revert mg. induction ps as [|p ps IH]; intros mg; simpl; [done|].
  destruct (collapse_module G labels p mg); [apply IH | done].
Qed.

Lemma modularise_raises st r G P e :
  heap st !! r = Some G → modularise G P = Raise e →
  ∃ st', _modularise_snakemake_graph r P st = (Raise e, st').
Proof.
  intros Hr He. destruct (modularise_run st r G P Hr) as (mg & Hrun & _).
  rewrite He in Hrun. eauto.
Qed.

(** When the prefixes before [p] name non-empty groups that do not overlap,
    and no cleaned label starts with [p], the call raises the error that
    names [p], whatever follows [p] in the list: the first prefix without a
    match is the one reported. *)
Theorem first_missing_prefix_reported st r G P1 p P2 :
  heap st !! r = Some G →
  Forall (λ q, group G q ≠ ∅) P1 → non_overlapping G P1 →
  group G p = ∅ →
  ∃ st', _modularise_snakemake_graph r (P1 ++ p :: P2) st
         = (Raise (ValueError ("Prefix not found: " +:+ p +:+ ".")), st').
Proof.
  intros Hr Hfound Hapart Hempty.
  apply (modularise_raises st r G); [done|].
  unfold modularise. rewrite collapse_modules_app.
  destruct (collapse_modules_total G ∅ P1 G Hfound Hapart) as [mg ->].
  - set_solver.
  - by intros a b.
  - simpl. unfold collapse_module. fold (group G p).
    by rewrite decide_True.
Qed.

Lemma first_missing_prefix_reported_witness :
  heap (state_with pipeline_graph) !! 1%positive = Some pipeline_graph
  ∧ Forall (λ q, group pipeline_graph q ≠ ∅) ["module_hydropower"]
  ∧ non_overlapping pipeline_graph ["module_hydropower"]
  ∧ group pipeline_graph "module _ hydropower" = ∅
  ∧ ∃ st', _modularise_snakemake_graph 1
             (["module_hydropower"] ++ "module _ hydropower" :: ["module_wind_pv"])
             (state_with pipeline_graph)
           = (Raise (ValueError "Prefix not found: module _ hydropower."), st').
Proof.
  assert (Forall (λ q, group pipeline_graph q ≠ ∅) ["module_hydropower"]) as H1
    by (repeat constructor; by_computing).
  assert (non_overlapping pipeline_graph ["module_hydropower"]) as H2
    by (simpl; repeat split; by_computing).
  assert (group pipeline_graph "module _ hydropower" = ∅) as H3 by by_computing.
  split; [reflexivity|]. split; [exact H1|]. split; [exact H2|].
  split; [exact H3|].
  apply (first_missing_prefix_reported (state_with pipeline_graph) 1
           pipeline_graph ["module_hydropower"] "module _ hydropower"
           ["module_wind_pv"]); [reflexivity | exact H1 | exact H2 | exact H3].
Defined.

(** ** A prefix given twice *)

(** A pass over a graph that has no edge inside the module fails at the
    first inside edge of the input that it meets. *)
Lemma rewrite_edges_second_pass p Mn es mg :
  no_inside_edge Mn mg →
  (∃ a b, (a, b) ∈ es ∧ a ∈ Mn ∧ b ∈ Mn) →
  ∃ msg, rewrite_edges p Mn es mg = Raise (NetworkXError msg).
Proof.
  revert mg. induction es as [|[x y] es IH]; intros mg Hnone (a & b & Hab & Ha & Hb).
  - by apply elem_of_nil in Hab.
  - simpl.
    assert (∀ mg1, no_inside_edge Mn mg1 → ¬ (x ∈ Mn ∧ y ∈ Mn) →
              ∃ msg, rewrite_edges p Mn es mg1 = Raise (NetworkXError msg))
      as Hnext.
    { intros mg1 Hmg1 Hxy. apply IH; [done|]. exists a, b.
      apply elem_of_cons in Hab as [[= -> ->]|Hab]; [tauto | done]. }
    destruct (rewrite_edge_cases p Mn (x, y) mg)
      as [(Hx & Hy & Heq)|[(Hx & Hy & Heq)|[(Hx & Hy & Heq)|(Hx & Hy & Heq)]]];
      simpl in *; rewrite Heq.
    + unfold remove_edge. destruct (edges mg !! (x, y)) as [d|] eqn:Hd; [|eauto].
      exfalso. apply (Hnone x y); [|done]. apply elem_of_dom. by exists d.
    + apply Hnext; [|tauto].
      intros c d [[= -> ->]|Hcd]%has_edge_add_edge; [tauto | by apply Hnone].
    + apply Hnext; [|tauto].
      intros c d [[= -> ->]|Hcd]%has_edge_add_edge; [tauto | by apply Hnone].
    + apply Hnext; [done | tauto].
Qed.

Lemma collapse_module_no_inside_edge G labels q Mn mg mg' :
  q ∉ Mn → no_inside_edge Mn mg →
  collapse_module G labels q mg = Ok mg' → no_inside_edge Mn mg'.
Proof.
  intros Hq Hnone. unfold collapse_module. case_decide; [done|].
  destruct (rewrite_edges _ _ _ _) as [mg1|] eqn:Hpass; [|done].
  intros [= <-] a b (Hab & _)%has_edge_remove_nodes_from.
  revert a b Hab.
  assert (no_inside_edge Mn (add_node q (module_node_attrs q) mg)) as Hstart
    by (intros a b Hab%has_edge_add_node; by apply Hnone).
  revert Hstart Hpass. generalize (add_node q (module_node_attrs q) mg).
  generalize (edge_list G). intros es. induction es as [|e es IH]; intros mg0; simpl.
  - by intros ? [= <-].
  - destruct (rewrite_edge q (module_nodes_of labels q) e mg0) as [mg2|] eqn:He;
      [|done].
    intros Hmg0. apply IH. intros a b Hab.
    destruct (rewrite_edge_cases q (module_nodes_of labels q) e mg0)
      as [(_ & _ & Heq)|[(_ & _ & Heq)|[(_ & _ & Heq)|(_ & _ & Heq)]]];
      rewrite Heq in He.
    + apply (has_edge_remove_edge _ _ _ _ a b) in He.
      apply Hmg0. by apply He.
    + injection He as <-.
      apply has_edge_add_edge in Hab as [[= -> ->]|Hab]; [tauto | by apply Hmg0].
    + injection He as <-.
      apply has_edge_add_edge in Hab as [[= -> ->]|Hab]; [tauto | by apply Hmg0].
    + injection He as <-. by apply Hmg0.
Qed.

Lemma collapse_modules_no_inside_edge G labels qs Mn mg mg' :
  Forall (λ q, q ∉ Mn) qs → no_inside_edge Mn mg →
  collapse_modules G labels qs mg = Ok mg' → no_inside_edge Mn mg'.
Proof.
  intros Hqs. revert mg. induction Hqs as [|q qs Hq Hqs IH]; intros mg Hnone; simpl.
  - by intros [= <-].
  - destruct (collapse_module G labels q mg) as [mg1|] eqn:Hstep; [|done].
    apply IH. by apply (collapse_module_no_inside_edge G labels q Mn mg).
Qed.

Lemma repeated_prefix_raises G P1 p P2 P3 u v :
  u ∈ group G p → v ∈ group G p → has_edge G u v →
  Forall (λ q, q ∉ group G p) P2 →
  ∃ e, modularise G (P1 ++ p :: P2 ++ p :: P3) = Raise e
       ∧ (is_Some (match modularise G (P1 ++ p :: P2) with
                   | Ok mg => Some mg
                   | Raise _ => None
                   end) →
          ∃ msg, e = NetworkXError msg).
Proof.
  intros Hu Hv Huv HP2.
  replace (P1 ++ p :: P2 ++ p :: P3) with ((P1 ++ p :: P2) ++ p :: P3)
    by (by rewrite <- app_assoc).
  unfold modularise. rewrite (collapse_modules_app _ _ (P1 ++ p :: P2)).
  destruct (collapse_modules G (clean_labels G) (P1 ++ p :: P2) G) as [mg|e]
    eqn:Hfirst.
  - assert (no_inside_edge (group G p) mg) as Hnone.
    { rewrite collapse_modules_app in Hfirst.
      destruct (collapse_modules G (clean_labels G) P1 G) as [mg1|]; [|done].
      simpl in Hfirst.
      destruct (collapse_module G (clean_labels G) p mg1) as [mg2|] eqn:Hp;
        [|done].
      apply (collapse_modules_no_inside_edge G (clean_labels G) P2 _ mg2);
        try done.
      unfold collapse_module in Hp. case_decide; [done|].
      destruct (rewrite_edges _ _ _ _) as [mg3|]; [|done].
      injection Hp as <-.
      intros a b (_ & Ha & _)%has_edge_remove_nodes_from. tauto. }
    simpl. unfold collapse_module. fold (group G p).
    rewrite decide_False by set_solver.
    destruct (rewrite_edges_second_pass p (group G p) (edge_list G)
                (add_node p (module_node_attrs p) mg)) as [msg ->].
    + intros a b Hab%has_edge_add_node. by apply Hnone.
    + exists u, v. split; [by apply elem_of_edge_list | done].
    + eauto.
  - exists e. split; [done|]. by intros [? ?].
Qed.

(** A prefix that occurs twice in the list, and whose group has an edge
    between two of its members, makes the call fail (unless a prefix between
    the two occurrences is the identifier of a member): the second
    occurrence asks to remove an inside edge that the first has removed,
    which is a [NetworkXError] when an error has not come earlier. *)
Theorem repeated_prefix_never_returns st r G P1 p P2 P3 u v :
  heap st !! r = Some G →
  u ∈ group G p → v ∈ group G p → has_edge G u v →
  Forall (λ q, q ∉ group G p) P2 →
  ∃ e st', _modularise_snakemake_graph r (P1 ++ p :: P2 ++ p :: P3) st
           = (Raise e, st')
           ∧ ((∃ l st1, _modularise_snakemake_graph r (P1 ++ p :: P2) st
                        = (Ok l, st1)) →
              ∃ msg, e = NetworkXError msg).
Proof.
  intros Hr Hu Hv Huv HP2.
  destruct (repeated_prefix_raises G P1 p P2 P3 u v Hu Hv Huv HP2)
    as (e & Hrun & Hkind).
  destruct (modularise_raises st r G _ e Hr Hrun) as [st' Hst'].
  exists e, st'. split; [done|].
  intros (l & st1 & Hfirst). apply Hkind.
  destruct (modularise_run st r G (P1 ++ p :: P2) Hr) as (mg & Hrun' & _).
  rewrite Hfirst in Hrun'.
  by destruct (modularise G (P1 ++ p :: P2)).
Qed.

Lemma repeated_prefix_never_returns_witness :
  heap (state_with scenario_graph) !! 1%positive = Some scenario_graph
  ∧ "A" ∈ group scenario_graph "module_x"
  ∧ "B" ∈ group scenario_graph "module_x"
  ∧ has_edge scenario_graph "A" "B"
  ∧ ∃ e st', _modularise_snakemake_graph 1
               ([] ++ "module_x" :: [] ++ "module_x" :: [])
               (state_with scenario_graph) = (Raise e, st')
             ∧ ((∃ l st1, _modularise_snakemake_graph 1 ([] ++ "module_x" :: [])
                            (state_with scenario_graph) = (Ok l, st1)) →
                ∃ msg, e = NetworkXError msg).
Proof.
  assert ("A" ∈ group scenario_graph "module_x") as H1 by by_computing.
  assert ("B" ∈ group scenario_graph "module_x") as H2 by by_computing.
  assert (has_edge scenario_graph "A" "B") as H3
    by (unfold has_edge; by_computing).
  split; [reflexivity|]. split; [exact H1|]. split; [exact H2|].
  split; [exact H3|].
  apply (repeated_prefix_never_returns (state_with scenario_graph) 1
           scenario_graph [] "module_x" [] [] "A" "B");
    [reflexivity | exact H1 | exact H2 | exact H3 | constructor].
Defined.

Example repeated_prefix_error :
  (_modularise_snakemake_graph 1 ["module_x"; "module_x"]
     (state_with scenario_graph)).1
  = Raise (NetworkXError "The edge A-B not in graph.").
Proof. vm_compute. reflexivity. Qed.

(** ** The entry operation, beyond its first test *)

Lemma substring_whole s : String.substring 0 (String.length s) s = s.
Proof. induction s as [|c s IH]; simpl; [done | by rewrite IH]. Qed.

Lemma string_length_app s1 s2 :
  String.length (s1 +:+ s2) = String.length s1 + String.length s2.
Proof. induction s1 as [|c s1 IH]; simpl; [done | by rewrite IH]. Qed.

Lemma endswith_app pre suf : Py.endswith (pre +:+ suf) suf = true.
Proof.
  unfold Py.endswith. rewrite string_length_app.
  apply andb_true_intro. split; [apply Nat.leb_le; lia|].
  replace (String.length pre + String.length suf - String.length suf)
    with (String.length pre) by lia.
  apply String.eqb_eq.
  induction pre as [|c pre IH]; simpl; [apply substring_whole | exact IH].
Qed.






(** * Further properties of the country-code helpers *)





(** ** EU codes go back in *)





(** The code BH does not come back: it is the ISO code of Bahrain, and the
    function reads it as Bosnia and Herzegovina. *)
Example bahrain_code_read_as_bosnia :
  let lookup := lookup_in iso3166_with_bahrain in
  (convert_country_code lookup "Bahrain" out_alpha2_eu (mkState ∅ [])).1
  = Ok "BH"
  ∧ (convert_country_code lookup "Bahrain" out_alpha3 (mkState ∅ [])).1
    = Ok "BHR"
  ∧ (convert_country_code lookup "BH" out_alpha3 (mkState ∅ [])).1
    = Ok "BIH".
Proof. by vm_compute. Qed.

(** ** Lists of country codes *)














(** The dictionary is keyed by the codes as they are spelt in the list: two
    spellings of one country are two keys. *)
Example test_convert_valid_countries :
  (convert_valid_countries excerpt_lookup quiet_logger
     ["France"; "FRA"; "FR"; "Atlantis"; "UK"] out_alpha3 errors_ignore
     (mkState ∅ [])).1
  = Ok (<["France" := "FRA"]>
          (<["FRA" := "FRA"]> (<["FR" := "FRA"]> (<["UK" := "GBR"]> ∅)))).
Proof. by_computing. Qed.

(** * The order of the prefixes *)

(** ** The attributes of the edges *)

Lemma fresh_no_edge G p x :
  well_formed G → ¬ has_node G p →
  edges G !! (p, x) = None ∧ edges G !! (x, p) = None.
Proof.
  intros Hwf Hp. split; apply not_elem_of_dom; intros He;
    apply Hp; by destruct (Hwf _ _ He).
Qed.

Lemma add_edge_attrs_inv G mg u v :
  edges G !! (u, v) = None → edge_attrs_inv G mg →
  edge_attrs_inv G (add_edge u v mg).
Proof.
  intros HG Hinv e d. unfold add_edge. simpl.
  destruct (edges mg !! (u, v)) eqn:Huv; [apply Hinv|].
  intros [[<- <-]|[_ Hd]]%lookup_insert_Some; [by rewrite HG | by apply Hinv].
Qed.

Lemma rewrite_edge_attrs_inv G p Mn e mg mg' :
  well_formed G → ¬ has_node G p → edge_attrs_inv G mg →
  rewrite_edge p Mn e mg = Ok mg' → edge_attrs_inv G mg'.
Proof.
  intros Hwf Hp Hinv Hrw.
  destruct (rewrite_edge_cases p Mn e mg)
    as [(_ & _ & Heq)|[(_ & _ & Heq)|[(_ & _ & Heq)|(_ & _ & Heq)]]];
    rewrite Heq in Hrw.
  - unfold remove_edge in Hrw.
    destruct (edges mg !! (e.1, e.2)); [|done]. injection Hrw as <-.
    intros e0 d Hd. simpl in Hd.
    apply lookup_delete_Some in Hd as [_ Hd]. by apply Hinv.
  - injection Hrw as <-. apply add_edge_attrs_inv; [|done].
    by destruct (fresh_no_edge G p e.2 Hwf Hp).
  - injection Hrw as <-. apply add_edge_attrs_inv; [|done].
    by destruct (fresh_no_edge G p e.1 Hwf Hp).
  - by injection Hrw as <-.
Qed.

Lemma rewrite_edges_attrs_inv G p Mn es mg mg' :
  well_formed G → ¬ has_node G p → edge_attrs_inv G mg →
  rewrite_edges p Mn es mg = Ok mg' → edge_attrs_inv G mg'.
Proof.
  intros Hwf Hp. revert mg. induction es as [|e es IH]; intros mg Hinv; simpl.
  - by intros [= <-].
  - destruct (rewrite_edge p Mn e mg) as [mg1|] eqn:He; [|done].
    apply IH. by apply (rewrite_edge_attrs_inv G p Mn e mg).
Qed.

Lemma collapse_module_attrs_inv G labels p mg mg' :
  well_formed G → ¬ has_node G p → edge_attrs_inv G mg →
  collapse_module G labels p mg = Ok mg' → edge_attrs_inv G mg'.
Proof.
  intros Hwf Hp Hinv. unfold collapse_module. case_decide; [done|].
  destruct (rewrite_edges _ _ _ _) as [mg1|] eqn:Hpass; [|done].
  intros [= <-] e d Hd. simpl in Hd.
  apply map_lookup_filter_Some in Hd as [Hd _].
  refine (rewrite_edges_attrs_inv G _ _ _ _ _ Hwf Hp _ Hpass e d Hd).
  intros e0 d0 Hd0. by apply Hinv.
Qed.

Lemma collapse_modules_attrs_inv G labels ps mg mg' :
  well_formed G → Forall (λ p, ¬ has_node G p) ps → edge_attrs_inv G mg →
  collapse_modules G labels ps mg = Ok mg' → edge_attrs_inv G mg'.
Proof.
  intros Hwf Hfresh. revert mg.
  induction Hfresh as [|p ps Hp Hfresh IH]; intros mg Hinv; simpl.
  - by intros [= <-].
  - destruct (collapse_module G labels p mg) as [mg1|] eqn:Hstep; [|done].
    apply IH. by apply (collapse_module_attrs_inv G labels p mg).
Qed.

(** ** The contract does not look at the order *)

Lemma grouped_Permutation G P P' : P ≡ₚ P' → grouped G P = grouped G P'.
Proof.
  intros HP. apply set_eq. intros n. rewrite !elem_of_grouped.
  split; intros (p & Hp & Hn); exists p; split; try done.
  - by rewrite <- HP.
  - by rewrite HP.
Qed.

Lemma non_overlapping_Permutation G P P' :
  P ≡ₚ P' → non_overlapping G P → non_overlapping G P'.
Proof.
  induction 1 as [|p P P' HP IH|p q P|P P' P'' _ IH1 _ IH2]; simpl.
  - done.
  - intros [Hdisj Hrest]. split; [|by apply IH].
    by rewrite <- (grouped_Permutation G P P').
  - rewrite !grouped_cons. intros (Hq & Hp & Hrest).
    split_and!; [set_solver | set_solver | done].
  - intros HP. by apply IH2, IH1.
Qed.

Lemma valid_prefixes_Permutation G P P' :
  P ≡ₚ P' → valid_prefixes G P → valid_prefixes G P'.
Proof.
  intros HP [Hfound Hapart Hfresh]. split.
  - by rewrite <- HP.
  - by apply (non_overlapping_Permutation G P).
  - by rewrite <- HP.
Qed.

Lemma no_joining_edge_Permutation G P P' :
  P ≡ₚ P' → no_joining_edge G P → no_joining_edge G P'.
Proof.
  intros HP Hjoin u v p q Huv Hp Hq. apply Hjoin; [done| |]; by rewrite HP.
Qed.

(** ** The graph that is returned *)

Lemma modularise_nodes G P G' :
  valid_prefixes G P → no_joining_edge G P → well_formed G →
  modularise G P = Ok G' →
  ∀ n, nodes G' !! n
       = if decide (n ∈ P) then Some (module_node_attrs n)
         else if decide (n ∈ grouped G P) then None
         else nodes G !! n.
Proof.
  intros Hvalid Hjoin Hwf Hrun n.
  destruct (modularise_exact G P G' Hvalid Hjoin Hwf Hrun) as [Hnodes _].
  pose proof Hvalid as [Hfound Hapart Hfresh].
  case_decide as HnP.
  - rewrite Forall_forall in Hfresh.
    apply (collapse_modules_proxy_attr G ∅ P G G' n); try done.
    + intros m Hm. by left.
    + by apply Hfresh.
    + by apply (valid_NoDup G).
    + apply Forall_forall. intros q Hq Hnq.
      by apply (valid_prefix_not_grouped G P n q n).
  - case_decide as Hng.
    + apply not_elem_of_dom. intros Hn. apply Hnodes in Hn. tauto.
    + destruct (nodes G !! n) as [d|] eqn:Hd.
      * apply (collapse_modules_node_attr G (clean_labels G) P G G');
          try done.
        apply Forall_forall. intros q Hq. split.
        -- by intros ->.
        -- intros Hnq. apply Hng, elem_of_grouped. eauto.
      * apply not_elem_of_dom. intros Hn. apply Hnodes in Hn.
        destruct Hn as [[Hn _]|Hn]; [|done].
        by apply not_elem_of_dom in Hd.
Qed.

Lemma modularise_Permutation G P P' G1 G2 :
  valid_prefixes G P → no_joining_edge G P → well_formed G → P ≡ₚ P' →
  modularise G P = Ok G1 → modularise G P' = Ok G2 → G1 = G2.
Proof.
  intros Hvalid Hjoin Hwf HP H1 H2.
  pose proof (valid_prefixes_Permutation G P P' HP Hvalid) as Hvalid'.
  pose proof (no_joining_edge_Permutation G P P' HP Hjoin) as Hjoin'.
  assert (graph_attr G1 = graph_attr G2) as Hattr.
  { rewrite (collapse_modules_graph_attr G (clean_labels G) P G G1 H1).
    by rewrite (collapse_modules_graph_attr G (clean_labels G) P' G G2 H2). }
  assert (nodes G1 = nodes G2) as Hnodes.
  { apply map_eq. intros n.
    rewrite (modularise_nodes G P G1 Hvalid Hjoin Hwf H1 n).
    rewrite (modularise_nodes G P' G2 Hvalid' Hjoin' Hwf H2 n).
    rewrite <- (grouped_Permutation G P P' HP).
    destruct (decide (n ∈ P)) as [Hn|Hn];
      destruct (decide (n ∈ P')) as [Hn'|Hn']; try done; exfalso.
    - by rewrite HP in Hn.
    - by rewrite <- HP in Hn'. }
  assert (edges G1 = edges G2) as Hedges.
  { destruct (modularise_exact G P G1 Hvalid Hjoin Hwf H1) as [_ He1].
    destruct (modularise_exact G P' G2 Hvalid' Hjoin' Hwf H2) as [_ He2].
    assert (edge_attrs_inv G G1) as Hinv1.
    { apply (collapse_modules_attrs_inv G (clean_labels G) P G G1);
        try done; [apply Hvalid | by intros e d ->]. }
    assert (edge_attrs_inv G G2) as Hinv2.
    { apply (collapse_modules_attrs_inv G (clean_labels G) P' G G2);
        try done; [apply Hvalid' | by intros e d ->]. }
    assert (∀ a b, has_edge G1 a b ↔ has_edge G2 a b) as Hsame.
    { intros a b. rewrite He1, He2.
      rewrite <- (grouped_Permutation G P P' HP).
      split; (intros [?|[[? ?]|[? ?]]]; [by left | right; left | right; right]);
        split; try done; by rewrite ?HP in * || rewrite <- ?HP in *. }
    apply map_eq. intros [a b].
    destruct (edges G1 !! (a, b)) as [d1|] eqn:Hd1.
    - assert (has_edge G2 a b) as [d2 Hd2]%elem_of_dom.
      { apply Hsame, elem_of_dom. by exists d1. }
      by rewrite Hd2, (Hinv1 _ _ Hd1), (Hinv2 _ _ Hd2).
    - symmetry. apply not_elem_of_dom. intros Hab%Hsame.
      by apply not_elem_of_dom in Hd1. }
  destruct G1, G2. simpl in *. by subst.
Qed.

(** Under the contract, on a well-formed graph in which no edge joins two
    different groups, the order of the prefixes does not matter: the routine
    returns the same graph (nodes, edges and every attribute) for any
    rearrangement of the list. *)
Theorem prefix_order_irrelevant (st : State) (r : loc) (G : DiGraph)
    (P P' : list string) :
  heap st !! r = Some G → valid_prefixes G P → no_joining_edge G P →
  well_formed G → P ≡ₚ P' →
  ∃ G', returns_graph (_modularise_snakemake_graph r P) st G'
        ∧ returns_graph (_modularise_snakemake_graph r P') st G'.
Proof.
  intros Hr Hvalid Hjoin Hwf HP.
  destruct (modularise_total G P Hvalid) as [G1 H1].
  destruct (modularise_total G P'
              (valid_prefixes_Permutation G P P' HP Hvalid)) as [G2 H2].
  exists G1. split; [by apply (modularise_returns st r G)|].
  rewrite (modularise_Permutation G P P' G1 G2) by done.
  by apply (modularise_returns st r G).
Qed.

Lemma prefix_order_irrelevant_witness :
  heap (state_with pipeline_graph) !! 1%positive = Some pipeline_graph
  ∧ valid_prefixes pipeline_graph pipeline_prefixes
  ∧ no_joining_edge pipeline_graph pipeline_prefixes
  ∧ well_formed pipeline_graph
  ∧ pipeline_prefixes ≡ₚ ["module_wind_pv"; "module_hydropower"]
  ∧ ∃ G', returns_graph (_modularise_snakemake_graph 1 pipeline_prefixes)
            (state_with pipeline_graph) G'
          ∧ returns_graph
              (_modularise_snakemake_graph 1
                 ["module_wind_pv"; "module_hydropower"])
              (state_with pipeline_graph) G'.
Proof.
  split; [reflexivity|]. split; [apply pipeline_valid|].
  split; [apply pipeline_modules_apart|].
  split; [apply pipeline_well_formed|].
  split; [apply Permutation_swap|].
  apply (prefix_order_irrelevant (state_with pipeline_graph) 1 pipeline_graph
           pipeline_prefixes ["module_wind_pv"; "module_hydropower"]);
    [reflexivity | apply pipeline_valid | apply pipeline_modules_apart
    | apply pipeline_well_formed | apply Permutation_swap].
Defined.

(** When an edge joins two groups the order does matter: on the graph of
    two adjacent modules, the rule that comes back is the one of the prefix
    processed first. *)
Example prefix_order_matters_when_joined :
  ∃ G1 G2,
    returns_graph (_modularise_snakemake_graph 1 ["m1"; "m2"])
      (state_with two_modules_graph) G1
    ∧ returns_graph (_modularise_snakemake_graph 1 ["m2"; "m1"])
        (state_with two_modules_graph) G2
    ∧ dom (nodes G1) = {["A"; "m1"; "m2"]}
    ∧ dom (nodes G2) = {["B"; "m1"; "m2"]}.
Proof.
  eexists _, _. split.
  { eexists _, _. split; vm_compute; reflexivity. }
  split.
  { eexists _, _. split; vm_compute; reflexivity. }
  split; by_computing.
Qed.

(** * The exceptions of the routine *)

Lemma rewrite_edges_raises p Mn es mg e :
  rewrite_edges p Mn es mg = Raise e →
  ∃ u v, (u, v) ∈ es ∧ u ∈ Mn ∧ v ∈ Mn
         ∧ e = NetworkXError ("The edge " +:+ u +:+ "-" +:+ v +:+ " not in graph.").
Proof.
  revert mg. induction es as [|[u v] es IH]; intros mg; simpl; [done|].
  destruct (rewrite_edge p Mn (u, v) mg) as [mg1|e1] eqn:He.
  - intros (u' & v' & Hin & Hrest)%IH. exists u', v'. split; [by right|done].
  - intros [= ->]. exists u, v. split; [by left|].
    destruct (rewrite_edge_cases p Mn (u, v) mg)
      as [(Hu & Hv & Heq)|[(_ & _ & Heq)|[(_ & _ & Heq)|(_ & _ & Heq)]]];
      rewrite Heq in He; try done.
    simpl in *. unfold remove_edge in He.
    destruct (edges mg !! (u, v)); [done|]. by injection He as <-.
Qed.

Lemma collapse_modules_raises G ps mg e :
  collapse_modules G (clean_labels G) ps mg = Raise e →
  (∃ p, p ∈ ps ∧ group G p = ∅ ∧ e = prefix_not_found p)
  ∨ (∃ p u v, p ∈ ps ∧ has_edge G u v ∧ u ∈ group G p ∧ v ∈ group G p
              ∧ e = NetworkXError
                      ("The edge " +:+ u +:+ "-" +:+ v +:+ " not in graph.")).
Proof.
  revert mg. induction ps as [|p ps IH]; intros mg; simpl; [done|].
  destruct (collapse_module G (clean_labels G) p mg) as [mg1|e1] eqn:Hstep.
  - intros [(q & Hq & Hrest)|(q & u & v & Hq & Hrest)]%IH.
    + left. exists q. split; [by right|done].
    + right. exists q, u, v. split; [by right|done].
  - intros [= ->]. unfold collapse_module in Hstep.
    case_decide as Hempty.
    + injection Hstep as <-. left. exists p. split; [by left|done].
    + destruct (rewrite_edges _ _ _ _) as [mg2|e2] eqn:Hpass; [done|].
      injection Hstep as <-.
      apply rewrite_edges_raises in Hpass
        as (u & v & Huv%elem_of_edge_list & Hu & Hv & ->).
      right. exists p, u, v. split; [by left|done].
Qed.

(** The routine has two ways to fail, and no other: the [ValueError] that
    names a prefix of the list which no cleaned label starts with, and the
    [NetworkXError] of removing, a second time, an input edge between two
    members of the group of a prefix of the list. *)
Theorem raised_errors (st st' : State) (r : loc) (G : DiGraph)
    (P : list string) (e : exn) :
  heap st !! r = Some G →
  _modularise_snakemake_graph r P st = (Raise e, st') →
  (∃ p, p ∈ P ∧ group G p = ∅
        ∧ e = ValueError ("Prefix not found: " +:+ p +:+ "."))
  ∨ (∃ p u v, p ∈ P ∧ has_edge G u v ∧ u ∈ group G p ∧ v ∈ group G p
              ∧ e = NetworkXError
                      ("The edge " +:+ u +:+ "-" +:+ v +:+ " not in graph.")).
Proof.
  intros Hr Hrun.
  destruct (modularise_run st r G P Hr) as (mg & Hrun' & _).
  rewrite Hrun in Hrun'.
  destruct (modularise G P) as [G'|e'] eqn:Hmod; [done|].
  injection Hrun' as -> _. by apply (collapse_modules_raises G P G).
Qed.

Lemma raised_errors_witness :
  ∃ e st',
    heap (state_with two_modules_graph) !! 1%positive = Some two_modules_graph
    ∧ _modularise_snakemake_graph 1 ["m1"; "module_fail"]
        (state_with two_modules_graph) = (Raise e, st')
    ∧ ((∃ p, p ∈ ["m1"; "module_fail"] ∧ group two_modules_graph p = ∅
             ∧ e = ValueError ("Prefix not found: " +:+ p +:+ "."))
       ∨ (∃ p u v, p ∈ ["m1"; "module_fail"] ∧ has_edge two_modules_graph u v
                   ∧ u ∈ group two_modules_graph p
                   ∧ v ∈ group two_modules_graph p
                   ∧ e = NetworkXError
                           ("The edge " +:+ u +:+ "-" +:+ v
                            +:+ " not in graph."))).
Proof.
  eexists _, _. split; [reflexivity|]. split; [vm_compute; reflexivity|].
  eapply (raised_errors (state_with two_modules_graph) _ 1 two_modules_graph
            ["m1"; "module_fail"]);
    [reflexivity | vm_compute; reflexivity].
Defined.
